(** * The measure tagger of NeMo's English text normalisation

    A shallow embedding of
    [nemo_text_processing/text_normalization/en/taggers/measure.py]:
    the class [MeasureFst] builds one weighted finite-state transducer out
    of pynini combinators.  A transducer is embedded by its weighted
    relation, in executable form: the function that sends an input string
    to the list of its (output, cost) pairs.  Strings are byte strings, as
    pynini reads them; costs live in the tropical semiring (they add along
    a path, the decoder keeps the cheapest path). *)

From Stdlib Require Import List Ascii String ZArith Lia Bool.
Import ListNotations.

Set Implicit Arguments.

(** ** Strings and costs *)

Definition word := list ascii.

(** The bytes of a string literal. *)
Definition str (s : string) : word := list_ascii_of_string s.

(** String literals that hold double quotes are written with an apostrophe
    in the place of every double quote: [qstr "units: 'kg'"] is the string
    [units: "kg"].  No literal of the source holds an apostrophe. *)
Definition dquote : ascii := ascii_of_nat 34.

Definition qstr (s : string) : word :=
  map (fun c => if ascii_dec c "'"%char then dquote else c) (str s).

(** Costs are counted in thousandths: every weight constant of the source
    ([-0.001], [-1], [-100]) is a multiple of [0.001]. *)
Definition weight := Z.

Definition word_eqb (a b : word) : bool :=
  if list_eq_dec ascii_dec a b then true else false.

(** ** Weighted transducers *)

Definition wfst := word -> list (word * weight).

(** [maps T s o w]: the transducer [T] has an accepting path that reads
    [s], writes [o] and costs [w]. *)
Definition maps (T : wfst) (s o : word) (w : weight) : Prop := In (o, w) (T s).

Arguments maps T s o w%_Z.

(** [accepts T s]: [T] has an accepting path that reads [s]. *)
Definition accepts (T : wfst) (s : word) : Prop := exists o w, maps T s o w.

(** All the ways of cutting a string in two. *)
Fixpoint splits (s : word) : list (word * word) :=
  ([], s) ::
  match s with
  | [] => []
  | c :: s' => map (fun pr => (c :: fst pr, snd pr)) (splits s')
  end.

(** Pairing of the paths of two consecutive pieces. *)
Definition seq_paths (l1 : list (word * weight)) (k : unit -> list (word * weight))
  : list (word * weight) :=
  flat_map (fun a => map (fun b => (fst a ++ fst b, (snd a + snd b)%Z)) (k tt)) l1.

Module Pynini.

(** [pynini.accep(x)] *)
Definition accep (x : word) : wfst :=
  fun s => if word_eqb s x then [(x, 0%Z)] else [].

(** [pynini.cross(A, y)], [A] an acceptor and [y] a string. *)
Definition cross (A : wfst) (y : word) : wfst :=
  fun s => map (fun a => (y, snd a)) (A s).

(** [pynutil.insert(y)], the cross of the empty string and [y]. *)
Definition insert (y : word) : wfst := cross (accep []) y.

(** [pynutil.delete(A)], the cross of [A] and the empty string. *)
Definition delete (A : wfst) : wfst := cross A [].

(** [A | B], [pynini.union] *)
Definition union (A B : wfst) : wfst := fun s => A s ++ B s.

(** [A + B], concatenation *)
Definition concat (A B : wfst) : wfst :=
  fun s => flat_map (fun pr => seq_paths (A (fst pr)) (fun _ => B (snd pr)))
                    (splits s).

(** [A @ B], [pynini.compose] *)
Definition compose (A B : wfst) : wfst :=
  fun s => flat_map (fun a => map (fun b => (fst b, (snd a + snd b)%Z)) (B (fst a)))
                    (A s).

(** [A - B], [pynini.difference], of acceptors *)
Definition difference (A B : wfst) : wfst :=
  fun s => match B s with [] => A s | _ :: _ => [] end.

(** [pynutil.add_weight(A, w)] *)
Definition add_weight (A : wfst) (w : weight) : wfst :=
  fun s => map (fun a => (fst a, (snd a + w)%Z)) (A s).

Arguments add_weight A w%_Z.

(** [A ** n] *)
Fixpoint power (A : wfst) (n : nat) : wfst :=
  match n with
  | O => accep []
  | S n' => concat A (power A n')
  end.

(** between 0 and [n] copies of [A] *)
Fixpoint upto (A : wfst) (n : nat) : wfst :=
  match n with
  | O => accep []
  | S n' => union (accep []) (concat A (upto A n'))
  end.

(** Kleene star.  Every iteration reads at least one symbol, so
    [length s] iterations are enough for the input [s]. *)
Fixpoint star_fuel (n : nat) (A : wfst) (s : word) : list (word * weight) :=
  match s with
  | [] => [([], 0%Z)]
  | c :: s' =>
      match n with
      | O => []
      | S n' =>
          flat_map (fun pr => seq_paths (A (c :: fst pr))
                                        (fun _ => star_fuel n' A (snd pr)))
                   (splits s')
      end
  end.

(** [pynini.closure(A)] *)
Definition star (A : wfst) : wfst := fun s => star_fuel (List.length s) A s.

(** [pynini.closure(A, lower, upper)]; [upper = None] is unbounded. *)
Definition closure (A : wfst) (lower : nat) (upper : option nat) : wfst :=
  match upper with
  | Some u => concat (power A lower) (upto A (u - lower))
  | None => concat (power A lower) (star A)
  end.

(** [pynini.string_map(pairs)]; [pynini.string_file] is the same on the
    rows of the file. *)
Definition string_map (pairs : list (word * word)) : wfst :=
  fun s => flat_map (fun kv => if word_eqb s (fst kv) then [(snd kv, 0%Z)] else [])
                    pairs.

(** [pynini.invert] of a string map *)
Definition invert_map (pairs : list (word * word)) : list (word * word) :=
  map (fun kv => (snd kv, fst kv)) pairs.

(** [.optimize()] changes the automaton, not its weighted relation: the
    outputs of an input, and for each of them the least cost, stay as
    they are.  The model keeps the list of paths of its operand; paths
    that read and write the same strings stand for one path of the
    optimized automaton, at the least of their costs. *)
Definition optimize (A : wfst) : wfst := A.

End Pynini.
Import Pynini.

Declare Scope wfst_scope.
Delimit Scope wfst_scope with wfst.
Bind Scope wfst_scope with wfst.
Infix ":+:" := concat (at level 60, right associativity) : wfst_scope.
Infix ":|:" := union (at level 65, right associativity) : wfst_scope.
Infix ":@:" := compose (at level 40, left associativity) : wfst_scope.
Local Open Scope wfst_scope.

(** [plurals._priority_union(Q, R, sigma)] of pynini's library:
    [Q | ((sigma - project(Q, "input")) @ R)], that is [R] on the inputs
    that [Q] does not read. *)
Definition priority_union (Q R : wfst) : wfst :=
  fun s => match Q s with [] => R s | _ :: _ => Q s end.

(** ** The constants and helpers of [graph_utils] *)

Module GraphUtils.

(** The ASCII classes of a byte. *)
Definition is_digit (c : ascii) : bool :=
  (48 <=? nat_of_ascii c)%nat && (nat_of_ascii c <=? 57)%nat.

Definition is_lower (c : ascii) : bool :=
  (97 <=? nat_of_ascii c)%nat && (nat_of_ascii c <=? 122)%nat.

Definition is_upper (c : ascii) : bool :=
  (65 <=? nat_of_ascii c)%nat && (nat_of_ascii c <=? 90)%nat.

Definition is_alpha (c : ascii) : bool := is_lower c || is_upper c.

(** The lowercase letter of an uppercase letter. *)
Definition to_lower (c : ascii) : ascii :=
  if is_upper c then ascii_of_nat (nat_of_ascii c + 32) else c.

(** The acceptor of the one-symbol strings whose symbol satisfies [p]. *)
Definition sym (p : ascii -> bool) : wfst :=
  fun s => match s with
           | [c] => if p c then [([c], 0%Z)] else []
           | _ => []
           end.

(** Modelled from the spec: [NEMO_DIGIT] of [graph_utils], which is not
    among the sources; the class of the decimal digits. *)
Definition NEMO_DIGIT : wfst := sym is_digit.

(** Modelled from the spec: [NEMO_LOWER] of [graph_utils], the class of the
    lowercase letters. *)
Definition NEMO_LOWER : wfst := sym is_lower.

(** Modelled from the spec: [NEMO_UPPER] of [graph_utils], the class of the
    uppercase letters. *)
Definition NEMO_UPPER : wfst := sym is_upper.

(** Modelled from the spec: [NEMO_ALPHA] of [graph_utils], the union of
    the two classes of letters. *)
Definition NEMO_ALPHA : wfst := NEMO_LOWER :|: NEMO_UPPER.

(** Modelled from the spec: [NEMO_SPACE] of [graph_utils], the ordinary
    space. *)
Definition NEMO_SPACE : word := str " ".

(** Modelled from the spec: [NEMO_NON_BREAKING_SPACE] of [graph_utils], the
    non-breaking separator, distinct from the ordinary space (U+00A0, two
    bytes in UTF-8). *)
Definition NEMO_NON_BREAKING_SPACE : word := [ascii_of_nat 194; ascii_of_nat 160].

(** Modelled from the spec: [NEMO_WHITE_SPACE] of [graph_utils], the white
    space that the space-delete combinator reads: space, tab, line feed,
    carriage return and the non-breaking separator. *)
Definition NEMO_WHITE_SPACE : wfst :=
  accep (str " ") :|: accep [ascii_of_nat 9] :|: accep [ascii_of_nat 10]
  :|: accep [ascii_of_nat 13] :|: accep NEMO_NON_BREAKING_SPACE.

(** Modelled from the spec: [NEMO_SIGMA], the closure of the character
    class of [graph_utils]; an input reaches the transducer as the bytes
    of a Python string, and every such string is in it. *)
Definition NEMO_SIGMA : wfst := fun s => [(s, 0%Z)].

(** Modelled from the spec: [delete_space] of [graph_utils], the shared
    space-delete combinator. *)
Definition delete_space : wfst := delete (closure NEMO_WHITE_SPACE 0 None).

(** Modelled from the spec: [insert_space] of [graph_utils], the shared
    space-insert combinator. *)
Definition insert_space : wfst := insert (str " ").

(** Modelled from the spec: the lowercase projection [TO_LOWER] of
    [graph_utils], one uppercase letter read and its lowercase written. *)
Definition TO_LOWER : wfst :=
  fun s => match s with
           | [c] => if is_upper c then [([to_lower c], 0%Z)] else []
           | _ => []
           end.

(** A string with every ordinary space replaced by the non-breaking
    separator. *)
Definition nbsp_of_space (s : word) : word :=
  flat_map (fun c => if ascii_dec c " "%char then NEMO_NON_BREAKING_SPACE else [c]) s.

(** Modelled from the spec: the right operand of the composition in
    [convert_space] of [graph_utils], the obligatory rewrite of every
    ordinary space into the non-breaking separator. *)
Definition rewrite_space : wfst := fun s => [(nbsp_of_space s, 0%Z)].

(** Modelled from the spec: [convert_space] of [graph_utils], which turns
    the spaces that a transducer writes into the non-breaking separator. *)
Definition convert_space (A : wfst) : wfst := A :@: rewrite_space.

(** [pynini.union] of a list of strings *)
Definition union_accep (l : list word) : wfst :=
  fold_right (fun x A => accep x :|: A) (fun _ => []) l.

(** Modelled from the spec: the consonants [_c] of [graph_utils]. *)
Definition consonants : list word :=
  map (fun c => [c]) (str "bcdfghjklmnpqrstvwxyz").

(** Modelled from the spec: the rule [_ies] of [graph_utils], [-y] to
    [-ies] after a consonant. *)
Definition plural_ies : wfst :=
  NEMO_SIGMA :+: union_accep consonants :+: cross (accep (str "y")) (str "ies").

(** Modelled from the spec: the rule [_es] of [graph_utils], [-es] after a
    sibilant. *)
Definition plural_es : wfst :=
  NEMO_SIGMA :+: union_accep [str "s"; str "sh"; str "ch"; str "x"; str "z"]
  :+: insert (str "es").

(** Modelled from the spec: the rule [_s] of [graph_utils], the regular
    plural in [-s]. *)
Definition plural_s : wfst := NEMO_SIGMA :+: insert (str "s").

(** Modelled from the spec: the independent singular-to-plural mapping
    [SINGULAR_TO_PLURAL] of [graph_utils]: the rows of
    [data/suppletive.tsv] first, then the rules [_ies], [_es] and [_s], each
    on the inputs that the ones before do not read. *)
Definition SINGULAR_TO_PLURAL (suppletive : list (word * word)) : wfst :=
  optimize
    (priority_union (string_map suppletive)
       (priority_union plural_ies (priority_union plural_es plural_s))).

(** Modelled from the spec: [GraphFst.add_tokens], the token wrapper: the
    field name and the structural braces around the finished alternation. *)
Definition add_tokens (name : word) (A : wfst) : wfst :=
  insert (name ++ str " { ") :+: A :+: insert (str " }").

End GraphUtils.
Import GraphUtils.

(** ** The injected grammars and the data files *)

(** The attributes of [CardinalFst], [DecimalFst] and [FractionFst] that
    [MeasureFst] reads.  The three grammars are built elsewhere and passed
    to the constructor. *)
Record CardinalFst := {
  graph : wfst;
  range_graph : wfst;
  graph_hundred_component_at_least_one_none_zero_digit : wfst;
  single_digits_graph : wfst
}.

Record DecimalFst := { final_graph_wo_negative : wfst }.

Record FractionFst := { fraction_graph : wfst }.

(** What the constructor loads by path or imports: the rows of the [.tsv]
    files, the transducer that [get_formats] builds from
    [data/address/address_words.tsv], and the ordinal tagger and
    verbalizer.  A state row carries its abbreviation as the first
    character and the rest, the way line 285 takes it apart. *)
Record Resources := {
  measurements_tsv : list (word * word);
  math_operations_tsv : list (word * word);
  suppletive_tsv : list (word * word);
  states_tsv : list (word * (ascii * word));
  address_words_formats : wfst;
  OrdinalTagger : CardinalFst -> wfst;
  OrdinalVerbalizer : wfst
}.

(** ** [MeasureFst] *)

Section MeasureFst.

Variable cardinal : CardinalFst.
Variable decimal : DecimalFst.
Variable fraction : FractionFst.
Variable deterministic : bool.
Variable lm : bool.
Variable data : Resources.

(** lines 62-65 *)
Definition cardinal_graph : wfst :=
  if deterministic then graph cardinal
  else graph cardinal :|: range_graph cardinal.

(** line 67 *)
Definition graph_unit_file : wfst := string_map (measurements_tsv data).

(** line 68, the composed operand: the case-folded variant *)
Definition graph_unit_case_folded : wfst :=
  optimize ((closure TO_LOWER 1 None :+: closure NEMO_ALPHA 0 None) :@: graph_unit_file).

(** line 68, [graph_unit] after [|=] *)
Definition graph_unit_any_case : wfst := graph_unit_file :|: graph_unit_case_folded.

(** lines 70-72 *)
Definition graph_unit_no_degrees : wfst :=
  optimize
    (graph_unit_any_case :@:
     difference NEMO_SIGMA
       (accep (str "degree Celsius") :|: accep (str "degree Fahrenheit"))).

(** lines 74-83 *)
Definition graph_unit_plural : wfst :=
  optimize
    (convert_space (graph_unit_no_degrees :@: SINGULAR_TO_PLURAL (suppletive_tsv data))
     :|: optimize
           ((graph_unit_any_case :@: accep (str "degree Celsius"))
            :@: cross (accep (str "degree Celsius")) (str "degrees Celsius"))
     :|: optimize
           ((graph_unit_any_case :@: accep (str "degree Fahrenheit"))
            :@: cross (accep (str "degree Fahrenheit")) (str "degrees Fahrenheit"))).

(** line 84, [graph_unit] from here on *)
Definition graph_unit : wfst := convert_space graph_unit_any_case.

(** line 86 *)
Definition optional_graph_negative : wfst :=
  closure (insert (str "negative: ") :+: cross (accep (str "-")) (qstr "'true' "))
          0 (Some 1).

(** line 88 *)
Definition graph_unit2 : wfst :=
  cross (accep (str "/")) (str "per") :+: delete_space
  :+: insert NEMO_NON_BREAKING_SPACE :+: graph_unit.

(** lines 90-92 *)
Definition optional_graph_unit2 : wfst :=
  closure (delete_space :+: insert NEMO_NON_BREAKING_SPACE :+: graph_unit2) 0 (Some 1).

(** lines 94-98 *)
Definition unit_plural : wfst :=
  insert (qstr "units: '")
  :+: ((graph_unit_plural :+: optional_graph_unit2) :|: graph_unit2)
  :+: insert (qstr "'").

(** lines 100-102 *)
Definition unit_singular : wfst :=
  insert (qstr "units: '")
  :+: ((graph_unit :+: optional_graph_unit2) :|: graph_unit2)
  :+: insert (qstr "'").

(** lines 104-111 *)
Definition subgraph_decimal : wfst :=
  insert (str "decimal { ")
  :+: optional_graph_negative
  :+: final_graph_wo_negative decimal
  :+: delete_space
  :+: insert (str " } ")
  :+: unit_plural.

(** lines 113-122, [subgraph_cardinal] before [|=] *)
Definition subgraph_cardinal_plural : wfst :=
  insert (str "cardinal { ")
  :+: optional_graph_negative
  :+: insert (qstr "integer: '")
  :+: (difference NEMO_SIGMA (accep (str "1")) :@: cardinal_graph)
  :+: delete_space
  :+: insert (qstr "'")
  :+: insert (str " } ")
  :+: unit_plural.

(** lines 124-133, the operand of [|=] *)
Definition subgraph_cardinal_singular : wfst :=
  insert (str "cardinal { ")
  :+: optional_graph_negative
  :+: insert (qstr "integer: '")
  :+: cross (accep (str "1")) (str "one")
  :+: delete_space
  :+: insert (qstr "'")
  :+: insert (str " } ")
  :+: unit_singular.

(** [subgraph_cardinal] after the [|=] of line 124 *)
Definition subgraph_cardinal : wfst :=
  subgraph_cardinal_plural :|: subgraph_cardinal_singular.

(** lines 135-142 *)
Definition unit_graph : wfst :=
  insert (qstr "cardinal { integer: '-' } units: '")
  :+: cross (accep (str "/") :|: accep (str "per")) (str "per")
  :+: delete_space
  :+: insert NEMO_NON_BREAKING_SPACE
  :+: graph_unit
  :+: insert (qstr "' preserve_order: true").

(** lines 144-151 *)
Definition cardinal_dash_alpha : wfst :=
  insert (qstr "cardinal { integer: '")
  :+: cardinal_graph
  :+: accep (str "-")
  :+: insert (qstr "' } units: '")
  :+: closure NEMO_ALPHA 1 None
  :+: insert (qstr "'").

(** lines 153-161 *)
Definition alpha_dash_cardinal : wfst :=
  insert (qstr "units: '")
  :+: closure NEMO_ALPHA 1 None
  :+: accep (str "-")
  :+: insert (qstr "'")
  :+: insert (qstr " cardinal { integer: '")
  :+: cardinal_graph
  :+: insert (qstr "' } preserve_order: true").

(** lines 163-170 *)
Definition decimal_dash_alpha : wfst :=
  insert (str "decimal { ")
  :+: final_graph_wo_negative decimal
  :+: cross (accep (str "-")) []
  :+: insert (qstr " } units: '")
  :+: closure NEMO_ALPHA 1 None
  :+: insert (qstr "'").

(** lines 172-178 *)
Definition decimal_times : wfst :=
  insert (str "decimal { ")
  :+: final_graph_wo_negative decimal
  :+: insert (qstr " } units: '")
  :+: cross (accep (str "x") :|: accep (str "X")) (str "x")
  :+: insert (qstr "'").

(** lines 180-188 *)
Definition alpha_dash_decimal : wfst :=
  insert (qstr "units: '")
  :+: closure NEMO_ALPHA 1 None
  :+: accep (str "-")
  :+: insert (qstr "'")
  :+: insert (str " decimal { ")
  :+: final_graph_wo_negative decimal
  :+: insert (str " } preserve_order: true").

(** lines 190-192 *)
Definition subgraph_fraction : wfst :=
  insert (str "fraction { ") :+: fraction_graph fraction :+: delete_space
  :+: insert (str " } ") :+: unit_plural.

(** *** [get_address_graph] *)

(** lines 246-250 *)
Definition ordinal_num : wfst :=
  (insert (qstr "integer: '") :+: OrdinalTagger data cardinal :+: insert (qstr "'"))
  :@: OrdinalVerbalizer data.

(** lines 252-256: the split spelling, a prefix of one or two digits and a
    suffix of two digits *)
Definition address_num_split : wfst :=
  (closure NEMO_DIGIT 1 (Some 2)
   :@: graph_hundred_component_at_least_one_none_zero_digit cardinal)
  :+: insert_space
  :+: (power NEMO_DIGIT 2
       :@: (closure (cross (accep (str "0")) (str "zero ")) 0 (Some 1)
            :+: graph_hundred_component_at_least_one_none_zero_digit cardinal)).

(** line 258; the bias [-0.001] is [-1] thousandth *)
Definition address_num_weighted : wfst :=
  add_weight (closure NEMO_DIGIT 3 (Some 4) :@: address_num_split) (-1).

(** line 259 *)
Definition address_num : wfst := address_num_weighted :|: graph cardinal.

(** lines 261-266 *)
Definition direction_word : wfst :=
  (cross (accep (str "E")) (str "East")
   :|: cross (accep (str "S")) (str "South")
   :|: cross (accep (str "W")) (str "West")
   :|: cross (accep (str "N")) (str "North"))
  :+: closure (delete (accep (str "."))) 0 (Some 1).

(** line 268; the bias [-1] is [-1000] thousandths *)
Definition direction : wfst :=
  closure (add_weight (accep NEMO_SPACE :+: direction_word) (-1000)) 0 (Some 1).

(** lines 269-276 *)
Definition address_words : wfst :=
  accep NEMO_SPACE
  :+: (closure ordinal_num 0 (Some 1) :|: closure NEMO_ALPHA 1 None)
  :+: accep NEMO_SPACE
  :+: closure (NEMO_ALPHA :|: accep NEMO_SPACE) 0 None
  :+: address_words_formats data.

(** lines 278-279 *)
Definition city : wfst :=
  closure (accep (str ",") :+: accep NEMO_SPACE
           :+: closure (NEMO_ALPHA :|: accep NEMO_SPACE) 1 None)
          0 (Some 1).

(** lines 283-285 *)
Definition additional_options : list (word * word) :=
  map (fun xy => (fst xy, fst (snd xy) :: str "." ++ snd (snd xy))) (states_tsv data).

(** line 286, [states] after [extend] *)
Definition states : list (word * word) :=
  map (fun xy => (fst xy, fst (snd xy) :: snd (snd xy))) (states_tsv data)
  ++ additional_options.

(** lines 287-289 *)
Definition state : wfst :=
  closure (accep (str ",") :+: accep NEMO_SPACE :+: string_map (invert_map states))
          0 (Some 1).

(** lines 291-296; the bias [-100] is [-100000] thousandths *)
Definition zip_code : wfst :=
  closure
    (add_weight
       (closure (accep (str ",")) 0 (Some 1) :+: accep NEMO_SPACE
        :+: (power NEMO_DIGIT 5 :@: single_digits_graph cardinal))
       (-100000))
    0 (Some 1).

(** lines 298-308; the bias [-0.001] is [-1] thousandth *)
Definition get_address_graph : wfst :=
  let address :=
    address_num :+: direction :+: address_words
    :+: closure (add_weight (city :+: state :+: zip_code) (-1)) 0 (Some 1) in
  if lm then
    address
    :|: (address_num :+: direction :+: address_words
         :+: closure (cross (accep (str ".")) []) 0 (Some 1))
  else address.

(** lines 194-199 *)
Definition address : wfst :=
  insert (qstr "units: 'address' cardinal { integer: '")
  :+: get_address_graph
  :+: insert (qstr "' } preserve_order: true").

(** line 201 *)
Definition math_operations : wfst := string_map (math_operations_tsv data).

(** line 202 *)
Definition delimiter : wfst := accep (str " ") :|: insert (str " ").

(** lines 204-214, [math] before the wrapping of line 215 *)
Definition math_equation : wfst :=
  (cardinal_graph :|: NEMO_ALPHA)
  :+: delimiter
  :+: math_operations
  :+: (delimiter :|: NEMO_ALPHA)
  :+: cardinal_graph
  :+: delimiter
  :+: cross (accep (str "=")) (str "equals")
  :+: delimiter
  :+: (cardinal_graph :|: NEMO_ALPHA).

(** lines 215-219 *)
Definition math : wfst :=
  insert (qstr "units: 'math' cardinal { integer: '")
  :+: math_equation
  :+: insert (qstr "' } preserve_order: true").

(** lines 220-232 *)
Definition final_graph : wfst :=
  subgraph_decimal
  :|: subgraph_cardinal
  :|: unit_graph
  :|: cardinal_dash_alpha
  :|: alpha_dash_cardinal
  :|: decimal_dash_alpha
  :|: decimal_times
  :|: alpha_dash_decimal
  :|: subgraph_fraction
  :|: address
  :|: math.

(** lines 234-235, [self.fst] *)
Definition measure_fst : wfst :=
  optimize (add_tokens (str "measure") final_graph).

End MeasureFst.

(** ** A small instance of the injected grammars and data files

    The primitive grammars are injected and the data files are loaded by
    path.  The instance below holds the rows that the examples of the
    specification and of the docstrings use; the general statements are
    about every instance. *)

Module Sample.

(** The rows of a table, written as pairs of literals. *)
Definition pairs (l : list (string * string)) : list (word * word) :=
  map (fun kv => (str (fst kv), str (snd kv))) l.

(** Modelled from the spec: rows of the digit tables behind
    [cardinal.single_digits_graph]. *)
Definition digit_names : list (word * word) :=
  pairs [("0", "zero"); ("1", "one"); ("2", "two"); ("3", "three"); ("4", "four");
         ("5", "five"); ("6", "six"); ("7", "seven"); ("8", "eight"); ("9", "nine")]%string.

(** Modelled from the spec: some pairs of [cardinal.graph], the integer
    spelling. *)
Definition number_names : list (word * word) :=
  pairs [("1", "one"); ("2", "two"); ("3", "three"); ("4", "four"); ("5", "five");
         ("6", "six"); ("7", "seven"); ("8", "eight"); ("9", "nine"); ("10", "ten");
         ("12", "twelve"); ("27", "twenty seven"); ("88", "eighty eight");
         ("905", "nine hundred five");
         ("2788", "two thousand seven hundred eighty eight");
         ("95051", "ninety five thousand fifty one")]%string.

(** Modelled from the spec: some pairs of the hundred-component
    spelling. *)
Definition hundred_names : list (word * word) :=
  pairs [("1", "one"); ("2", "two"); ("5", "five"); ("9", "nine"); ("10", "ten");
         ("12", "twelve"); ("27", "twenty seven"); ("88", "eighty eight");
         ("905", "nine hundred five")]%string.

(** Modelled from the spec: a Cardinal handle, with its integer-spelling
    graph, range variant, hundred-component spelling and single-digit
    spelling. *)
Definition cardinal : CardinalFst :=
  {| graph := string_map number_names;
     range_graph := string_map (pairs [("2-3", "two to three")]%string);
     graph_hundred_component_at_least_one_none_zero_digit := string_map hundred_names;
     single_digits_graph :=
       string_map digit_names
       :+: closure (insert_space :+: string_map digit_names) 0 None |}.

(** Modelled from the spec: a Decimal handle, its sign-free
    decimal-literal graph on two literals. *)
Definition decimal : DecimalFst :=
  {| final_graph_wo_negative :=
       string_map [(str ".5", qstr "fractional_part: 'five'");
                   (str "4.5", qstr "integer_part: 'four' fractional_part: 'five'")] |}.

(** Modelled from the spec: a Fraction handle, its graph on one
    fraction. *)
Definition fraction : FractionFst :=
  {| fraction_graph :=
       string_map [(str "1/2", qstr "numerator: 'one' denominator: 'two'")] |}.

(** Modelled from the spec: rows of the lexicon tables (units, math
    operator symbols, suppletive plurals, USPS state names, address
    abbreviations) and an ordinal tagger and verbalizer pair on one
    ordinal. *)
Definition data : Resources :=
  {| measurements_tsv :=
       pairs [("kg", "kilogram"); ("km", "kilometer"); ("h", "hour"); ("ft", "foot");
              ("C", "degree Celsius"); ("F", "degree Fahrenheit");
              ("sq ft", "square foot")]%string;
     math_operations_tsv :=
       pairs [("+", "plus"); ("-", "minus"); ("*", "times"); ("/", "divided")]%string;
     suppletive_tsv := pairs [("foot", "feet")]%string;
     states_tsv := [(str "California", ("C"%char, str "A"))];
     address_words_formats :=
       string_map (pairs [("Expy", "Expressway"); ("St", "Street")]%string);
     OrdinalTagger := fun _ => string_map (pairs [("1st", "first")]%string);
     OrdinalVerbalizer := string_map [(qstr "integer: 'first'", str "first")] |}.

(** The transducer that [MeasureFst(cardinal, decimal, fraction)] exposes,
    with the default flags [deterministic=True] and [lm=False]. *)
Definition tagger : wfst := measure_fst cardinal decimal fraction true false data.

(** The same resources with another unit table. *)
Definition with_units (units : list (word * word)) : Resources :=
  {| measurements_tsv := units;
     math_operations_tsv := math_operations_tsv data;
     suppletive_tsv := suppletive_tsv data;
     states_tsv := states_tsv data;
     address_words_formats := address_words_formats data;
     OrdinalTagger := OrdinalTagger data;
     OrdinalVerbalizer := OrdinalVerbalizer data |}.

End Sample.

(** The cheapest outputs of a transducer on an input, what a shortest-path
    decoder chooses among. *)
Definition min_cost (l : list (word * weight)) : option weight :=
  match l with
  | [] => None
  | a :: l' => Some (fold_left Z.min (map snd l') (snd a))
  end.

(** The paths of least cost. *)
Definition cheapest (T : wfst) (s : word) : list (word * weight) :=
  match min_cost (T s) with
  | None => []
  | Some m => filter (fun a => (snd a =? m)%Z) (T s)
  end.

(** Kleene star as a relation: a sequence of non-empty pieces, each read by
    [A]. *)
Inductive star_rel (A : wfst) : word -> word -> weight -> Prop :=
| star_rel_nil : star_rel A [] [] 0%Z
| star_rel_cons c s1 s2 o1 o2 w1 w2 :
    maps A (c :: s1) o1 w1 -> star_rel A s2 o2 w2 ->
    star_rel A ((c :: s1) ++ s2) (o1 ++ o2) (w1 + w2)%Z.

(** The runs of white space that [delete_space] reads. *)
Definition blank (s : word) : Prop := accepts delete_space s.

(** What the optional sign combinator reads and writes: nothing, or the
    sign and the field it inserts. *)
Definition sign (neg nf : word) : Prop :=
  (neg = [] /\ nf = []) \/ (neg = str "-" /\ nf = qstr "negative: 'true' ").

(** The shape of the output of the two cardinal branches. *)
Definition cardinal_token (nf c x : word) : word :=
  str "cardinal { " ++ nf ++ qstr "integer: '" ++ c ++ qstr "'" ++ str " } " ++ x.

(** The symbols of a numeral: the decimal digits and the thousands
    separator. *)
Definition is_numeral (c : ascii) : bool :=
  is_digit c || if ascii_dec c ","%char then true else false.

(** The output of the branch on an equation: the spelled operands, the
    word of the operator and [equals], one space between them. *)
Definition math_token (a op b c : word) : word :=
  qstr "units: 'math' cardinal { integer: '"
  ++ a ++ str " " ++ op ++ str " " ++ b ++ str " " ++ str "equals" ++ str " " ++ c
  ++ qstr "' } preserve_order: true".

(** A transducer whose paths all cost nothing. *)
Definition unweighted (T : wfst) : Prop := forall s o w, maps T s o w -> w = 0%Z.

(** The right operand of the composition on lines 253-256: the two-digit
    suffix of a house number, its leading zero spelled [zero]. *)
Definition address_suffix (cardinal : CardinalFst) : wfst :=
  closure (cross (accep (str "0")) (str "zero ")) 0 (Some 1)
  :+: graph_hundred_component_at_least_one_none_zero_digit cardinal.

(** ** Tagged tokens, as the specification words them

    Section 3 of the specification gives the shape of a token: nested
    field blocks [negative], [cardinal{integer}], [decimal{...}],
    [fraction{...}], [units] and [preserve_order], inside the wrapper
    [measure { ... }] of its section 6.  The sign is a field of its own
    and the cardinal block holds the integer field only, as in the
    docstring of the class (line 46).  The definitions below follow these
    words, not the code: a token is cut into lexemes, white space of any
    length between them, and the lexemes are checked against the shape. *)








(** ** Relations between transducers *)

(** Every path of [A] is a path of [B], with the same cost. *)
Definition sub (A B : wfst) : Prop := forall s o w, maps A s o w -> maps B s o w.

(** A transducer that reads at least one symbol on every path. *)
Definition reads_nonempty (T : wfst) : Prop :=
  forall s o w, maps T s o w -> s <> [].

(** An outer operand of the equation of lines 204-214: what the cardinal
    graph reads, or one ASCII letter, copied. *)
Definition operand (C : wfst) (x x' : word) (w : weight) : Prop :=
  maps C x x' w
  \/ exists l, x = [l] /\ is_alpha l = true /\ x' = [l] /\ w = 0%Z.

(** What stands between the operator and the middle operand on line 208:
    a delimiter, written as one space, or one ASCII letter, copied. *)
Definition after_operator (m m' : word) : Prop :=
  ((m = [] \/ m = str " ") /\ m' = str " ")
  \/ exists l, m = [l] /\ is_alpha l = true /\ m' = [l].

(** The letters and the ordinary space, the symbols of a city name on
    line 278. *)
Definition is_alpha_or_space (c : ascii) : bool :=
  is_alpha c || Ascii.eqb c " "%char.

(** The four compass letters of lines 261-265 and their words. *)
Definition compass : list (word * word) :=
  [(str "E", str "East"); (str "S", str "South");
   (str "W", str "West"); (str "N", str "North")].

(** The grammars and tables that the address graph is built from carry no
    weight of their own: the biases of an address path are then those of
    [get_address_graph] only. *)
Definition unweighted_address_grammars
  (cardinal : CardinalFst) (data : Resources) : Prop :=
  unweighted (graph cardinal)
  /\ unweighted (graph_hundred_component_at_least_one_none_zero_digit cardinal)
  /\ unweighted (single_digits_graph cardinal)
  /\ unweighted (address_words_formats data)
  /\ unweighted (OrdinalTagger data cardinal)
  /\ unweighted (OrdinalVerbalizer data).

(** The costs of the paths of a transducer all satisfy [P]. *)
Definition costs (P : weight -> Prop) (T : wfst) : Prop :=
  forall s o w, maps T s o w -> P w.

(** The costs that come from the injected grammars and from nothing else:
    zero, the cost of a path of the cardinal graph, of the decimal graph
    or of the fraction graph, and the sums of such costs. *)
Inductive grammar_cost (cardinal : CardinalFst) (decimal : DecimalFst)
          (fraction : FractionFst) (deterministic : bool) : weight -> Prop :=
| gc_zero : grammar_cost cardinal decimal fraction deterministic 0%Z
| gc_cardinal s o w :
    maps (cardinal_graph cardinal deterministic) s o w ->
    grammar_cost cardinal decimal fraction deterministic w
| gc_decimal s o w :
    maps (final_graph_wo_negative decimal) s o w ->
    grammar_cost cardinal decimal fraction deterministic w
| gc_fraction s o w :
    maps (fraction_graph fraction) s o w ->
    grammar_cost cardinal decimal fraction deterministic w
| gc_add w1 w2 :
    grammar_cost cardinal decimal fraction deterministic w1 ->
    grammar_cost cardinal decimal fraction deterministic w2 ->
    grammar_cost cardinal decimal fraction deterministic (w1 + w2)%Z.

(** The parts of an address path and the bias that each carries.  The
    house number is read by the split spelling of line 258, at its bias,
    or by the cardinal graph of line 259. *)
Definition house_number_part (cardinal : CardinalFst) (a : Z) (num on : word) : Prop :=
  (a = 1%Z /\ maps (address_num_weighted cardinal) num on (-1))
  \/ (a = 0%Z /\ maps (graph cardinal) num on 0).

(** The direction of line 268 is read, at its bias, or is absent. *)
Definition direction_part (b : Z) (dir od : word) : Prop :=
  (b = 1%Z /\ dir <> [] /\ maps direction dir od (-1000))
  \/ (b = 0%Z /\ dir = [] /\ od = []).

(** The zip code of lines 291-296 is read, at its bias, or is absent. *)
Definition zip_part (cardinal : CardinalFst) (z : Z) (zp oz : word) : Prop :=
  (z = 1%Z /\ zp <> [] /\ maps (zip_code cardinal) zp oz (-100000))
  \/ (z = 0%Z /\ zp = [] /\ oz = []).

(** What follows the street: nothing (or, with [lm=True], a period that
    is deleted), at no cost; or the group of city, state and zip code of
    line 302, at its bias, each of the three read or absent. *)
Definition tail_part (cardinal : CardinalFst) (data : Resources) (lm : bool)
           (c z : Z) (tail ot : word) : Prop :=
  (c = 0%Z /\ z = 0%Z /\ ot = [] /\ (tail = [] \/ (lm = true /\ tail = str ".")))
  \/ (c = 1%Z /\
      exists ci st zp oc os oz,
        tail = ci ++ st ++ zp /\ ot = oc ++ os ++ oz /\
        maps city ci oc 0 /\ maps (state data) st os 0 /\
        zip_part cardinal z zp oz).

(** * Properties of the combinators *)

Lemma word_eqb_eq (a b : word) : word_eqb a b = true <-> a = b.
Proof.
  unfold word_eqb. destruct (list_eq_dec ascii_dec a b); split; congruence.
Qed.

Lemma word_eqb_refl (a : word) : word_eqb a a = true.
Proof. now apply word_eqb_eq. Qed.

Lemma word_eqb_neq (a b : word) : word_eqb a b = false <-> a <> b.
Proof.
  unfold word_eqb. destruct (list_eq_dec ascii_dec a b); split; congruence.
Qed.

Lemma in_splits (s p r : word) : In (p, r) (splits s) <-> s = p ++ r.
Proof.
  revert p r. induction s as [|c s IH]; intros p r; simpl.
  - split.
    + intros [H|[]]. inversion H. reflexivity.
    + intros H. symmetry in H. apply app_eq_nil in H as [-> ->]. now left.
  - split.
    + intros [H|H].
      * inversion H. reflexivity.
      * apply in_map_iff in H as [[p' r'] [H1 H2]]. simpl in H1.
        inversion H1; subst. apply IH in H2. now subst.
    + intros H. destruct p as [|c' p].
      * simpl in H. subst r. now left.
      * simpl in H. inversion H; subst. right.
        apply in_map_iff. exists (p, r). split; [reflexivity|].
        now apply IH.
Qed.

Lemma in_seq_paths l1 k o w :
  In (o, w) (seq_paths l1 k) <->
  exists o1 w1 o2 w2, In (o1, w1) l1 /\ In (o2, w2) (k tt) /\
                      o = o1 ++ o2 /\ w = (w1 + w2)%Z.
Proof.
  unfold seq_paths. rewrite in_flat_map. split.
  - intros [[o1 w1] [H1 H2]]. apply in_map_iff in H2 as [[o2 w2] [E H2]].
    simpl in E. inversion E; subst. now exists o1, w1, o2, w2.
  - intros (o1 & w1 & o2 & w2 & H1 & H2 & -> & ->).
    exists (o1, w1). split; [assumption|].
    apply in_map_iff. now exists (o2, w2).
Qed.

Lemma maps_accep x s o w : maps (accep x) s o w <-> s = x /\ o = x /\ w = 0%Z.
Proof.
  unfold maps, accep. destruct (word_eqb s x) eqn:E; simpl.
  - apply word_eqb_eq in E. split.
    + intros [H|[]]. inversion H; subst; auto.
    + intros (_ & -> & ->). now left.
  - apply word_eqb_neq in E. split; [intros []|intros (H & _); contradiction].
Qed.

Lemma maps_cross (A : wfst) y s o w :
  maps (cross A y) s o w <-> o = y /\ exists o', maps A s o' w.
Proof.
  unfold maps, cross. rewrite in_map_iff. split.
  - intros [[o' w'] [E H]]. simpl in E. inversion E; subst. eauto.
  - intros (-> & o' & H). now exists (o', w).
Qed.

Lemma maps_insert y s o w : maps (insert y) s o w <-> s = [] /\ o = y /\ w = 0%Z.
Proof.
  unfold insert. rewrite maps_cross. split.
  - intros (-> & o' & H). apply maps_accep in H. tauto.
  - intros (-> & -> & ->). split; [reflexivity|]. exists []. now apply maps_accep.
Qed.

Lemma maps_delete (A : wfst) s o w :
  maps (delete A) s o w <-> o = [] /\ exists o', maps A s o' w.
Proof. apply maps_cross. Qed.

Lemma maps_union (A B : wfst) s o w : maps (A :|: B) s o w <-> maps A s o w \/ maps B s o w.
Proof. unfold maps, union. apply in_app_iff. Qed.

Lemma maps_concat (A B : wfst) s o w :
  maps (A :+: B) s o w <->
  exists s1 s2 o1 o2 w1 w2,
    s = s1 ++ s2 /\ maps A s1 o1 w1 /\ maps B s2 o2 w2 /\
    o = o1 ++ o2 /\ w = (w1 + w2)%Z.
Proof.
  unfold maps at 1. unfold concat. rewrite in_flat_map. split.
  - intros [[s1 s2] [Hs H]]. apply in_splits in Hs.
    apply in_seq_paths in H as (o1 & w1 & o2 & w2 & H1 & H2 & -> & ->).
    now exists s1, s2, o1, o2, w1, w2.
  - intros (s1 & s2 & o1 & o2 & w1 & w2 & -> & H1 & H2 & -> & ->).
    exists (s1, s2). split; [now apply in_splits|].
    apply in_seq_paths. now exists o1, w1, o2, w2.
Qed.

Lemma maps_compose (A B : wfst) s o w :
  maps (A :@: B) s o w <->
  exists m w1 w2, maps A s m w1 /\ maps B m o w2 /\ w = (w1 + w2)%Z.
Proof.
  unfold maps at 1. unfold compose. rewrite in_flat_map. split.
  - intros [[m w1] [H1 H2]]. apply in_map_iff in H2 as [[o' w2] [E H2]].
    simpl in *. inversion E; subst. now exists m, w1, w2.
  - intros (m & w1 & w2 & H1 & H2 & ->). exists (m, w1). split; [assumption|].
    apply in_map_iff. now exists (o, w2).
Qed.

Lemma maps_difference (A B : wfst) s o w :
  maps (difference A B) s o w <-> maps A s o w /\ ~ accepts B s.
Proof.
  unfold maps, accepts, maps, difference. destruct (B s) as [|[o' w'] l] eqn:E.
  - split; [|tauto]. intros H. split; [assumption|]. intros (? & ? & []).
  - split; [intros []|]. intros [_ H]. exfalso. apply H. exists o', w'. now left.
Qed.

Lemma maps_add_weight (A : wfst) k s o w :
  maps (add_weight A k) s o w <-> maps A s o (w - k)%Z.
Proof.
  unfold maps, add_weight. rewrite in_map_iff. split.
  - intros [[o' w'] [E H]]. simpl in E. inversion E; subst.
    now replace (w' + k - k)%Z with w' by lia.
  - intros H. exists (o, (w - k)%Z). split; [simpl; f_equal; lia|assumption].
Qed.

Lemma maps_optimize (A : wfst) s o w : maps (optimize A) s o w <-> maps A s o w.
Proof. reflexivity. Qed.

Lemma maps_priority_union (A B : wfst) s o w :
  maps (priority_union A B) s o w <->
  maps A s o w \/ (~ accepts A s /\ maps B s o w).
Proof.
  unfold maps, accepts, maps, priority_union. destruct (A s) as [|[o' w'] l] eqn:E.
  - split.
    + intros H. right. split; [|assumption]. intros (? & ? & []).
    + intros [[]|[_ H]]. assumption.
  - split; [tauto|]. intros [H|[H _]]; [assumption|].
    exfalso. apply H. exists o', w'. now left.
Qed.

(** [closure(A, 0, 1)], the optional combinator *)
Lemma maps_optional (A : wfst) s o w :
  maps (closure A 0 (Some 1)) s o w <->
  (s = [] /\ o = [] /\ w = 0%Z) \/ maps A s o w.
Proof.
  unfold closure. simpl. rewrite maps_concat. split.
  - intros (s1 & s2 & o1 & o2 & w1 & w2 & -> & H1 & H2 & -> & ->).
    apply maps_accep in H1 as (-> & -> & ->). simpl.
    apply maps_union in H2 as [H2|H2].
    + apply maps_accep in H2. tauto.
    + right. apply maps_concat in H2
        as (t1 & t2 & p1 & p2 & v1 & v2 & -> & H3 & H4 & -> & ->).
      apply maps_accep in H4 as (-> & -> & ->).
      rewrite !app_nil_r. now replace (v1 + 0)%Z with v1 by lia.
  - intros [(-> & -> & ->)|H].
    + exists [], [], [], [], 0%Z, 0%Z. repeat split; try now apply maps_accep.
      apply maps_union. left. now apply maps_accep.
    + exists [], s, [], o, 0%Z, w. repeat split; try now apply maps_accep.
      apply maps_union. right. apply maps_concat.
      exists s, [], o, [], w, 0%Z. rewrite !app_nil_r.
      repeat split; try assumption; try lia. now apply maps_accep.
Qed.

Lemma star_fuel_rel (A : wfst) n : forall s o w,
  (List.length s <= n)%nat ->
  (In (o, w) (star_fuel n A s) <-> star_rel A s o w).
Proof.
  induction n as [|n IH]; intros s o w Hn.
  - destruct s; [|simpl in Hn; lia]. simpl. split.
    + intros [H|[]]. inversion H. constructor.
    + intros H. inversion H; subst. now left.
  - destruct s as [|c s].
    + simpl. split.
      * intros [H|[]]. inversion H. constructor.
      * intros H. inversion H; subst. now left.
    + simpl. rewrite in_flat_map. split.
      * intros [[s1 s2] [Hs H]]. apply in_splits in Hs. subst s.
        apply in_seq_paths in H as (o1 & w1 & o2 & w2 & H1 & H2 & -> & ->).
        simpl in H1, H2. apply IH in H2.
        -- now apply star_rel_cons.
        -- simpl in Hn. rewrite length_app in Hn. lia.
      * intros H. inversion H; subst.
        exists (s1, s2). split; [now apply in_splits|].
        apply in_seq_paths. exists o1, w1, o2, w2. simpl.
        repeat split; try assumption. apply IH; [|assumption].
        simpl in Hn. rewrite length_app in Hn. lia.
Qed.

Lemma maps_star (A : wfst) s o w : maps (star A) s o w <-> star_rel A s o w.
Proof. unfold maps, star. now apply star_fuel_rel. Qed.

(** [closure(A)] *)
Lemma maps_closure_star (A : wfst) s o w :
  maps (closure A 0 None) s o w <-> star_rel A s o w.
Proof.
  unfold closure. simpl. rewrite maps_concat. split.
  - intros (s1 & s2 & o1 & o2 & w1 & w2 & -> & H1 & H2 & -> & ->).
    apply maps_accep in H1 as (-> & -> & ->). now apply maps_star in H2.
  - intros H. exists [], s, [], o, 0%Z, w.
    repeat split; try now apply maps_accep. now apply maps_star.
Qed.

(** [closure(A, 1)] *)
Lemma maps_closure_plus (A : wfst) s o w :
  maps (closure A 1 None) s o w <->
  exists s1 s2 o1 o2 w1 w2,
    s = s1 ++ s2 /\ maps A s1 o1 w1 /\ star_rel A s2 o2 w2 /\
    o = o1 ++ o2 /\ w = (w1 + w2)%Z.
Proof.
  unfold closure. simpl. rewrite maps_concat. split.
  - intros (s1 & s2 & o1 & o2 & w1 & w2 & -> & H1 & H2 & -> & ->).
    apply maps_concat in H1
      as (t1 & t2 & p1 & p2 & v1 & v2 & -> & H3 & H4 & -> & ->).
    apply maps_accep in H4 as (-> & -> & ->). apply maps_star in H2.
    exists t1, s2, p1, o2, v1, w2. rewrite !app_nil_r.
    repeat split; try assumption. lia.
  - intros (s1 & s2 & o1 & o2 & w1 & w2 & -> & H1 & H2 & -> & ->).
    exists s1, s2, o1, o2, w1, w2. repeat split; [|now apply maps_star].
    apply maps_concat. exists s1, [], o1, [], w1, 0%Z. rewrite !app_nil_r.
    repeat split; try assumption; try lia. now apply maps_accep.
Qed.

Lemma maps_string_map l s o w :
  maps (string_map l) s o w <-> In (s, o) l /\ w = 0%Z.
Proof.
  unfold maps, string_map. rewrite in_flat_map. split.
  - intros [[k v] [H1 H2]]. simpl in H2.
    destruct (word_eqb s k) eqn:E; [|destruct H2].
    apply word_eqb_eq in E. destruct H2 as [H2|[]]. inversion H2; subst. auto.
  - intros [H ->]. exists (s, o). split; [assumption|]. simpl.
    rewrite word_eqb_refl. now left.
Qed.

Lemma maps_sigma s o w : maps NEMO_SIGMA s o w <-> o = s /\ w = 0%Z.
Proof.
  unfold maps, NEMO_SIGMA. simpl. split.
  - intros [H|[]]. inversion H. auto.
  - intros [-> ->]. now left.
Qed.

Lemma maps_sym p s o w :
  maps (sym p) s o w <-> exists c, s = [c] /\ p c = true /\ o = [c] /\ w = 0%Z.
Proof.
  unfold maps, sym. destruct s as [|c [|c' s]].
  - split; [intros []|]. intros (c & H & _). discriminate.
  - destruct (p c) eqn:E; simpl.
    + split.
      * intros [H|[]]. inversion H. now exists c.
      * intros (c' & H & _ & -> & ->). inversion H. now left.
    + split; [intros []|]. intros (c' & H & Hp & _). inversion H; subst. congruence.
  - split; [intros []|]. intros (c0 & H & _). discriminate.
Qed.

Lemma maps_TO_LOWER s o w :
  maps TO_LOWER s o w <->
  exists c, s = [c] /\ is_upper c = true /\ o = [to_lower c] /\ w = 0%Z.
Proof.
  unfold maps, TO_LOWER. destruct s as [|c [|c' s]].
  - split; [intros []|]. intros (c & H & _). discriminate.
  - destruct (is_upper c) eqn:E; simpl.
    + split.
      * intros [H|[]]. inversion H. now exists c.
      * intros (c' & H & _ & -> & ->). inversion H. now left.
    + split; [intros []|]. intros (c' & H & Hp & _). inversion H; subst. congruence.
  - split; [intros []|]. intros (c0 & H & _). discriminate.
Qed.

(** *** Closures of one-symbol transducers *)

Section SymbolClosure.

Variable A : wfst.
Variable p : ascii -> bool.
Variable f : ascii -> ascii.
Hypothesis A_sym : forall s o w,
  maps A s o w <-> exists c, s = [c] /\ p c = true /\ o = [f c] /\ w = 0%Z.

Lemma star_rel_sym s o w :
  star_rel A s o w <-> forallb p s = true /\ o = map f s /\ w = 0%Z.
Proof.
  split.
  - induction 1 as [|c s1 s2 o1 o2 w1 w2 H1 _ (IH1 & IH2 & IH3)].
    + auto.
    + apply A_sym in H1 as (c' & E & Hp & -> & ->). inversion E; subst.
      simpl. rewrite Hp, IH1. auto.
  - revert o w. induction s as [|c s IH]; intros o w (Hp & -> & ->).
    + constructor.
    + simpl in Hp. apply andb_prop in Hp as [Hc Hs].
      change (star_rel A ([c] ++ s) ([f c] ++ map f s) (0 + 0)%Z).
      apply star_rel_cons.
      * apply A_sym. now exists c.
      * now apply IH.
Qed.

Lemma maps_star_sym s o w :
  maps (closure A 0 None) s o w <-> forallb p s = true /\ o = map f s /\ w = 0%Z.
Proof. rewrite maps_closure_star. apply star_rel_sym. Qed.

Lemma maps_plus_sym s o w :
  maps (closure A 1 None) s o w <->
  s <> [] /\ forallb p s = true /\ o = map f s /\ w = 0%Z.
Proof.
  rewrite maps_closure_plus. split.
  - intros (s1 & s2 & o1 & o2 & w1 & w2 & -> & H1 & H2 & -> & ->).
    apply A_sym in H1 as (c & -> & Hp & -> & ->).
    apply star_rel_sym in H2 as (Hs & -> & ->).
    simpl. rewrite Hp, Hs. repeat split. discriminate.
  - intros (Hne & Hp & -> & ->). destruct s as [|c s']; [congruence|].
    simpl in Hp. apply andb_prop in Hp as [Hc Hs].
    exists [c], s', [f c], (map f s'), 0%Z, 0%Z. repeat split.
    + apply A_sym. now exists c.
    + now apply star_rel_sym.
Qed.

End SymbolClosure.

Lemma maps_NEMO_ALPHA s o w :
  maps NEMO_ALPHA s o w <->
  exists c, s = [c] /\ is_alpha c = true /\ o = [(fun x => x) c] /\ w = 0%Z.
Proof.
  unfold NEMO_ALPHA, NEMO_LOWER, NEMO_UPPER, is_alpha.
  rewrite maps_union, !maps_sym. split.
  - intros [(c & -> & H & -> & ->)|(c & -> & H & -> & ->)];
      exists c; rewrite H; auto using orb_true_r.
  - intros (c & -> & H & -> & ->). apply orb_prop in H as [H|H];
      [left|right]; now exists c.
Qed.

Lemma maps_NEMO_DIGIT s o w :
  maps NEMO_DIGIT s o w <->
  exists c, s = [c] /\ is_digit c = true /\ o = [(fun x => x) c] /\ w = 0%Z.
Proof. apply maps_sym. Qed.

Lemma maps_to_lower_plus s o w :
  maps (closure TO_LOWER 1 None) s o w <->
  s <> [] /\ forallb is_upper s = true /\ o = map to_lower s /\ w = 0%Z.
Proof. apply (maps_plus_sym TO_LOWER is_upper to_lower maps_TO_LOWER). Qed.

Lemma maps_alpha_star s o w :
  maps (closure NEMO_ALPHA 0 None) s o w <->
  forallb is_alpha s = true /\ o = s /\ w = 0%Z.
Proof.
  rewrite (maps_star_sym NEMO_ALPHA is_alpha (fun x => x) maps_NEMO_ALPHA).
  now rewrite map_id.
Qed.

Lemma maps_alpha_plus s o w :
  maps (closure NEMO_ALPHA 1 None) s o w <->
  s <> [] /\ forallb is_alpha s = true /\ o = s /\ w = 0%Z.
Proof.
  rewrite (maps_plus_sym NEMO_ALPHA is_alpha (fun x => x) maps_NEMO_ALPHA).
  now rewrite map_id.
Qed.

(** ** The case-folded unit variant (line 68) *)

Lemma maps_case_folded data s o w :
  maps (graph_unit_case_folded data) s o w <->
  exists u v,
    s = u ++ v /\ u <> [] /\ forallb is_upper u = true /\
    forallb is_alpha v = true /\
    In (map to_lower u ++ v, o) (measurements_tsv data) /\ w = 0%Z.
Proof.
  unfold graph_unit_case_folded, graph_unit_file.
  rewrite maps_optimize, maps_compose. split.
  - intros (m & w1 & w2 & H1 & H2 & ->).
    apply maps_concat in H1
      as (u & v & o1 & o2 & v1 & v2 & -> & Hu & Hv & -> & ->).
    apply maps_to_lower_plus in Hu as (Hne & Hup & -> & ->).
    apply maps_alpha_star in Hv as (Hal & -> & ->).
    apply maps_string_map in H2 as [H2 ->].
    exists u, v. repeat split; assumption.
  - intros (u & v & -> & Hne & Hup & Hal & Hin & ->).
    exists (map to_lower u ++ v), 0%Z, 0%Z. repeat split.
    + apply maps_concat. exists u, v, (map to_lower u), v, 0%Z, 0%Z.
      repeat split.
      * now apply maps_to_lower_plus.
      * now apply maps_alpha_star.
    + now apply maps_string_map.
Qed.

Lemma forallb_app_true (p : ascii -> bool) (a b : word) :
  forallb p (a ++ b) = true <-> forallb p a = true /\ forallb p b = true.
Proof. rewrite forallb_app. apply andb_true_iff. Qed.

Lemma alpha_not_upper c : is_alpha c = true -> is_upper c = false -> is_lower c = true.
Proof. unfold is_alpha. intros H E. rewrite E, orb_false_r in H. exact H. Qed.

(** C9.  The case-folded unit variant, the operand composed on line 68,
    accepts exactly the inputs made of a non-empty run of uppercase
    letters followed by a run of letters, whose form with that first run
    lowercased is a key of the unit table.  With the key [kg] of the
    table, [KG] and [Kg] are accepted; [kG] is accepted for no table, and
    when no key of the table holds an uppercase letter every accepted
    input is a run of uppercase letters followed by lowercase letters
    only, so that no uppercase letter comes after a lowercase one. *)
Theorem case_folded_unit_variant :
  (forall data s,
     accepts (graph_unit_case_folded data) s <->
     exists u v,
       s = u ++ v /\ u <> [] /\ forallb is_upper u = true /\
       forallb is_alpha v = true /\
       exists o, In (map to_lower u ++ v, o) (measurements_tsv data))
  /\ (forall data o, In (str "kg", o) (measurements_tsv data) ->
        maps (graph_unit_case_folded data) (str "KG") o 0 /\
        maps (graph_unit_case_folded data) (str "Kg") o 0)
  /\ (forall data, ~ accepts (graph_unit_case_folded data) (str "kG"))
  /\ (forall data s,
        (forall k o, In (k, o) (measurements_tsv data) ->
                     forallb (fun c => negb (is_upper c)) k = true) ->
        accepts (graph_unit_case_folded data) s ->
        exists u v, s = u ++ v /\ u <> [] /\ forallb is_upper u = true /\
                    forallb is_lower v = true)
  /\ graph_unit_case_folded Sample.data (str "KG") = [(str "kilogram", 0%Z)]
  /\ graph_unit_case_folded Sample.data (str "Kg") = [(str "kilogram", 0%Z)]
  /\ graph_unit_case_folded Sample.data (str "kG") = []
  /\ graph_unit_case_folded Sample.data (str "kg") = [].
Proof.
  split; [|split; [|split; [|split]]].
  - intros data s. unfold accepts. split.
    + intros (o & w & H). apply maps_case_folded in H
        as (u & v & -> & Hne & Hup & Hal & Hin & _).
      exists u, v. repeat split; try assumption. now exists o.
    + intros (u & v & -> & Hne & Hup & Hal & o & Hin).
      exists o, 0%Z. apply maps_case_folded. exists u, v. auto 10.
  - intros data o Hin. split; apply maps_case_folded.
    + exists (str "KG"), []. repeat split; try reflexivity; try discriminate.
      exact Hin.
    + exists (str "K"), (str "g"). repeat split; try reflexivity; try discriminate.
      exact Hin.
  - intros data (o & w & H). apply maps_case_folded in H
      as (u & v & E & Hne & Hup & _).
    destruct u as [|c u]; [congruence|]. simpl in E. inversion E; subst c.
    simpl in Hup. discriminate.
  - intros data s Hkeys (o & w & H). apply maps_case_folded in H
      as (u & v & -> & Hne & Hup & Hal & Hin & _).
    exists u, v. repeat split; try assumption.
    apply Hkeys in Hin. apply forallb_app_true in Hin as [_ Hv].
    rewrite forallb_forall in *. intros c Hc.
    apply alpha_not_upper; [now apply Hal|].
    specialize (Hv c Hc). now apply negb_true_iff in Hv.
  - repeat split; reflexivity.
Qed.

(** ** Inversion of the paths of a composite transducer *)

Ltac inv_step :=
  match goal with
  | H : maps (optimize _) _ _ _ |- _ => unfold optimize in H
  | H : maps (_ :+: _) _ _ _ |- _ =>
      apply maps_concat in H;
      destruct H as (? & ? & ? & ? & ? & ? & ? & ? & ? & ? & ?)
  | H : maps (_ :|: _) _ _ _ |- _ => apply maps_union in H; destruct H as [H|H]
  | H : maps (insert _) _ _ _ |- _ =>
      apply maps_insert in H; destruct H as (? & ? & ?)
  | H : maps (accep _) _ _ _ |- _ =>
      apply maps_accep in H; destruct H as (? & ? & ?)
  | H : maps (delete _) _ _ _ |- _ =>
      apply maps_delete in H; destruct H as (? & ? & H)
  | H : maps (cross _ _) _ _ _ |- _ =>
      apply maps_cross in H; destruct H as (? & ? & H)
  | H : maps (_ :@: _) _ _ _ |- _ =>
      apply maps_compose in H; destruct H as (? & ? & ? & ? & ? & ?)
  | H : maps (add_weight _ _) _ _ _ |- _ => apply maps_add_weight in H
  | H : maps (closure _ 0 (Some 1)) _ _ _ |- _ =>
      apply maps_optional in H; destruct H as [(? & ? & ?)|H]
  | H : maps (string_map _) _ _ _ |- _ =>
      apply maps_string_map in H; destruct H as (H & ?)
  | H : maps NEMO_SIGMA _ _ _ |- _ =>
      apply maps_sigma in H; destruct H as (? & ?)
  end.

Ltac inv_maps := repeat (inv_step; subst).

Lemma maps_concat_intro (A B : wfst) s1 s2 o1 o2 w1 w2 :
  maps A s1 o1 w1 -> maps B s2 o2 w2 ->
  maps (A :+: B) (s1 ++ s2) (o1 ++ o2) (w1 + w2).
Proof. intros H1 H2. apply maps_concat. now exists s1, s2, o1, o2, w1, w2. Qed.

Lemma maps_insert_then (B : wfst) y s o w :
  maps (insert y :+: B) s o w <-> exists o', maps B s o' w /\ o = y ++ o'.
Proof.
  split.
  - intros H. inv_maps. simpl. eauto.
  - intros (o' & H & ->).
    change (maps (insert y :+: B) ([] ++ s) (y ++ o') (0 + w)).
    apply maps_concat_intro; [now apply maps_insert|assumption].
Qed.

Lemma insert_then_intro (B : wfst) y s o w :
  maps B s o w -> maps (insert y :+: B) s (y ++ o) w.
Proof. intros H. apply maps_insert_then. eauto. Qed.

(** *** The shared sign and space combinators *)

Lemma maps_optional_graph_negative neg nf w :
  maps optional_graph_negative neg nf w <-> sign neg nf /\ w = 0%Z.
Proof.
  unfold optional_graph_negative, sign. split.
  - intros H. inv_maps; auto.
  - intros [[[-> ->]|[-> ->]] ->]; apply maps_optional.
    + now left.
    + right. apply maps_insert_then. eexists. split; [|reflexivity].
      apply maps_cross. split; [reflexivity|]. exists (str "-").
      now apply maps_accep.
Qed.

Lemma star_rel_zero (A : wfst) :
  (forall s o w, maps A s o w -> w = 0%Z) ->
  forall s o w, star_rel A s o w -> w = 0%Z.
Proof.
  intros HA s o w H. induction H as [|c s1 s2 o1 o2 w1 w2 H1 _ IH].
  - reflexivity.
  - apply HA in H1. lia.
Qed.

Lemma white_space_zero s o w : maps NEMO_WHITE_SPACE s o w -> w = 0%Z.
Proof. unfold NEMO_WHITE_SPACE. intros H. now inv_maps. Qed.

Lemma maps_delete_space s o w :
  maps delete_space s o w <-> blank s /\ o = [] /\ w = 0%Z.
Proof.
  unfold blank, accepts. split.
  - intros H. assert (H' := H). unfold delete_space in H.
    apply maps_delete in H as (-> & o' & H).
    apply maps_closure_star, (star_rel_zero white_space_zero) in H. subst.
    split; [|auto]. now exists [], 0%Z.
  - intros ((o1 & w1 & H) & -> & ->). assert (H' := H). unfold delete_space in H.
    apply maps_delete in H as (-> & o' & H).
    apply maps_closure_star, (star_rel_zero white_space_zero) in H.
    now subst.
Qed.

Lemma blank_nil : blank [].
Proof.
  exists [], 0%Z. unfold delete_space. apply maps_delete. split; [reflexivity|].
  exists []. apply maps_closure_star. constructor.
Qed.

Lemma space_then_intro (B : wfst) ws s o w :
  blank ws -> maps B s o w -> maps (delete_space :+: B) (ws ++ s) o w.
Proof.
  intros Hb H. change o with ([] ++ o). replace w with (0 + w)%Z by lia.
  apply maps_concat_intro; [now apply maps_delete_space|assumption].
Qed.

Lemma space_then_elim (B : wfst) s o w :
  maps (delete_space :+: B) s o w ->
  exists ws r, s = ws ++ r /\ blank ws /\ maps B r o w.
Proof.
  intros H. apply maps_concat in H as (ws & r & d & o' & wd & v & -> & Hd & H & -> & ->).
  apply maps_delete_space in Hd as (Hb & -> & ->). now exists ws, r.
Qed.

(** ** The cardinal branches (lines 113-133) *)

Lemma maps_cardinal_shape (Q U : wfst) s o w :
  maps (insert (str "cardinal { ")
        :+: optional_graph_negative
        :+: insert (qstr "integer: '")
        :+: Q
        :+: delete_space
        :+: insert (qstr "'")
        :+: insert (str " } ")
        :+: U) s o w <->
  exists neg nf q ws u c x w1 w2,
    s = neg ++ q ++ ws ++ u /\ sign neg nf /\ blank ws /\
    maps Q q c w1 /\ maps U u x w2 /\
    o = cardinal_token nf c x /\ w = (w1 + w2)%Z.
Proof.
  split.
  - intros H. apply maps_insert_then in H as (o1 & H & ->).
    apply maps_concat in H as (neg & r1 & nf & o2 & wn & v1 & -> & Hn & H & -> & ->).
    apply maps_optional_graph_negative in Hn as [Hs ->].
    apply maps_insert_then in H as (o3 & H & ->).
    apply maps_concat in H as (q & r2 & c & o4 & w1 & v2 & -> & HQ & H & -> & ->).
    apply maps_concat in H as (ws & u & d & o5 & wd & v3 & -> & Hd & H & -> & ->).
    apply maps_delete_space in Hd as (Hb & -> & ->).
    apply maps_insert_then in H as (o6 & H & ->).
    apply maps_insert_then in H as (x & H & ->).
    exists neg, nf, q, ws, u, c, x, w1, v3.
    repeat split; assumption.
  - intros (neg & nf & q & ws & u & c & x & w1 & w2
            & -> & Hs & Hb & HQ & HU & -> & ->).
    unfold cardinal_token. apply insert_then_intro.
    replace (w1 + w2)%Z with (0 + (w1 + w2))%Z by lia.
    apply maps_concat_intro; [now apply maps_optional_graph_negative|].
    apply insert_then_intro.
    apply maps_concat_intro; [assumption|].
    apply space_then_intro; [assumption|].
    now do 2 apply insert_then_intro.
Qed.

Lemma maps_not_one (C : wfst) q c w :
  maps (difference NEMO_SIGMA (accep (str "1")) :@: C) q c w <->
  q <> str "1" /\ maps C q c w.
Proof.
  rewrite maps_compose. split.
  - intros (m & w1 & w2 & H1 & H2 & ->).
    apply maps_difference in H1 as [H1 Hn]. apply maps_sigma in H1 as [-> ->].
    split; [|assumption]. intros ->. apply Hn.
    exists (str "1"), 0%Z. now apply maps_accep.
  - intros [Hn H]. exists q, 0%Z, w. repeat split; [|assumption].
    apply maps_difference. split; [now apply maps_sigma|].
    intros (o' & w' & H'). apply maps_accep in H' as [-> _]. now apply Hn.
Qed.

Lemma maps_one (q c : word) w :
  maps (cross (accep (str "1")) (str "one")) q c w <->
  q = str "1" /\ c = str "one" /\ w = 0%Z.
Proof.
  rewrite maps_cross. split.
  - intros (-> & o' & H). apply maps_accep in H. tauto.
  - intros (-> & -> & ->). split; [reflexivity|]. exists (str "1").
    now apply maps_accep.
Qed.

Lemma maps_subgraph_cardinal_plural cardinal deterministic data s o w :
  maps (subgraph_cardinal_plural cardinal deterministic data) s o w <->
  exists neg nf q ws u c x w1 w2,
    s = neg ++ q ++ ws ++ u /\ sign neg nf /\ blank ws /\
    (q <> str "1" /\ maps (cardinal_graph cardinal deterministic) q c w1) /\
    maps (unit_plural data) u x w2 /\
    o = cardinal_token nf c x /\ w = (w1 + w2)%Z.
Proof.
  unfold subgraph_cardinal_plural. rewrite maps_cardinal_shape.
  split; intros (neg & nf & q & ws & u & c & x & w1 & w2
                 & E & Hs & Hb & HQ & HU & Eo & Ew);
    exists neg, nf, q, ws, u, c, x, w1, w2;
    repeat split; try assumption; try (apply maps_not_one in HQ; tauto).
Qed.

Lemma maps_subgraph_cardinal_singular data s o w :
  maps (subgraph_cardinal_singular data) s o w <->
  exists neg nf ws u x,
    s = neg ++ str "1" ++ ws ++ u /\ sign neg nf /\ blank ws /\
    maps (unit_singular data) u x w /\
    o = cardinal_token nf (str "one") x.
Proof.
  unfold subgraph_cardinal_singular. rewrite maps_cardinal_shape. split.
  - intros (neg & nf & q & ws & u & c & x & w1 & w2
            & E & Hs & Hb & HQ & HU & Eo & Ew).
    apply maps_one in HQ as (-> & -> & ->). subst.
    now exists neg, nf, ws, u, x.
  - intros (neg & nf & ws & u & x & E & Hs & Hb & HU & Eo).
    exists neg, nf, (str "1"), ws, u, (str "one"), x, 0%Z, w.
    repeat split; try assumption. now apply maps_one.
Qed.

(** C1.  The outputs of the cardinal branch on an input are exactly these:
    for every way of reading the input as an optional sign, a quantity
    [q], white space and a unit part [u], when [q] is exactly [1] the
    integer is the literal [one] and the unit part goes through the
    singular unit transducer, and when [q] differs from [1] the integer is
    what the cardinal grammar writes for [q] and the unit part goes
    through the pluralized unit transducer.  So [1kg] gives
    [cardinal { integer: "one" } units: "kilogram"] and [2kg] gives
    [cardinal { integer: "two" } units: "kilograms"]. *)
Theorem cardinal_one_singular_else_plural :
  (forall cardinal deterministic data s o w,
     maps (subgraph_cardinal cardinal deterministic data) s o w <->
     exists neg nf q ws u c x w1 w2,
       s = neg ++ q ++ ws ++ u /\ sign neg nf /\ blank ws /\
       o = cardinal_token nf c x /\ w = (w1 + w2)%Z /\
       ((q = str "1" /\ c = str "one" /\ w1 = 0%Z /\
         maps (unit_singular data) u x w2)
        \/
        (q <> str "1" /\ maps (cardinal_graph cardinal deterministic) q c w1 /\
         maps (unit_plural data) u x w2)))
  /\ subgraph_cardinal Sample.cardinal true Sample.data (str "1kg")
     = [(qstr "cardinal { integer: 'one' } units: 'kilogram'", 0%Z)]
  /\ subgraph_cardinal Sample.cardinal true Sample.data (str "2kg")
     = [(qstr "cardinal { integer: 'two' } units: 'kilograms'", 0%Z)]
  /\ Sample.tagger (str "1kg")
     = [(qstr "measure { cardinal { integer: 'one' } units: 'kilogram' }", 0%Z)]
  /\ Sample.tagger (str "2kg")
     = [(qstr "measure { cardinal { integer: 'two' } units: 'kilograms' }", 0%Z)].
Proof.
  split; [|repeat split; vm_compute; reflexivity].
  intros cardinal deterministic data s o w.
  unfold subgraph_cardinal. rewrite maps_union.
  rewrite maps_subgraph_cardinal_plural, maps_subgraph_cardinal_singular.
  split.
  - intros [(neg & nf & q & ws & u & c & x & w1 & w2
             & E & Hs & Hb & [Hq HQ] & HU & Eo & Ew)
           |(neg & nf & ws & u & x & E & Hs & Hb & HU & Eo)].
    + exists neg, nf, q, ws, u, c, x, w1, w2. auto 10.
    + exists neg, nf, (str "1"), ws, u, (str "one"), x, 0%Z, w.
      repeat split; try assumption. left. auto.
  - intros (neg & nf & q & ws & u & c & x & w1 & w2
            & E & Hs & Hb & Eo & Ew & [(-> & -> & -> & HU)|(Hq & HQ & HU)]).
    + right. exists neg, nf, ws, u, x. simpl in Ew. subst w. auto.
    + left. exists neg, nf, q, ws, u, c, x, w1, w2. auto 10.
Qed.

(** ** The sign and the quantity 1 *)

Lemma sample_cardinal_numeral q c w :
  maps (cardinal_graph Sample.cardinal true) q c w ->
  q <> [] /\ forallb is_numeral q = true.
Proof.
  unfold cardinal_graph. simpl. intros H. apply maps_string_map in H as [H _].
  assert (K : forallb (fun kv => negb (word_eqb (fst kv) [])
                                 && forallb is_numeral (fst kv))
                      Sample.number_names = true) by (vm_compute; reflexivity).
  rewrite forallb_forall in K. apply K in H. simpl in H.
  apply andb_prop in H as [H1 H2]. split; [|assumption].
  apply negb_true_iff, word_eqb_neq in H1. assumption.
Qed.

(** C10.  The quantity that the plural branch excludes is the digit string
    left after the sign combinator has read the sign.  Let the cardinal
    grammar read numerals only, and let the unit part [u] not begin with a
    numeral symbol: on the input [-1] followed by [u] the plural branch
    has no path at all, and the outputs of the cardinal branch are exactly
    [negative: "true"], the integer [one] and the singular unit form of
    [u].  So [-1kg] yields
    [cardinal { negative: "true" integer: "one" } units: "kilogram"]. *)
Theorem minus_one_takes_singular :
  (forall cardinal deterministic data u,
     (forall q c w, maps (cardinal_graph cardinal deterministic) q c w ->
                    q <> [] /\ forallb is_numeral q = true) ->
     (forall a u', u = a :: u' -> is_numeral a = false) ->
     (forall o w,
        ~ maps (subgraph_cardinal_plural cardinal deterministic data)
               (str "-1" ++ u) o w)
     /\
     (forall o w,
        maps (subgraph_cardinal cardinal deterministic data) (str "-1" ++ u) o w <->
        exists ws r x,
          u = ws ++ r /\ blank ws /\ maps (unit_singular data) r x w /\
          o = cardinal_token (qstr "negative: 'true' ") (str "one") x))
  /\ subgraph_cardinal Sample.cardinal true Sample.data (str "-1kg")
     = [(qstr "cardinal { negative: 'true' integer: 'one' } units: 'kilogram'", 0%Z)]
  /\ Sample.tagger (str "-1kg")
     = [(qstr "measure { cardinal { negative: 'true' integer: 'one' } units: 'kilogram' }",
         0%Z)].
Proof.
  split; [|split; vm_compute; reflexivity].
  intros cardinal deterministic data u Hcard Hu.
  assert (Hplural : forall o w,
             ~ maps (subgraph_cardinal_plural cardinal deterministic data)
                    (str "-1" ++ u) o w).
  { intros o w H. apply maps_subgraph_cardinal_plural in H
      as (neg & nf & q & ws & r & c & x & w1 & w2
          & E & Hs & Hb & [Hq HQ] & HU & Eo & Ew).
    apply Hcard in HQ as [Hne Hnum].
    destruct q as [|a q]; [congruence|]. simpl in Hnum.
    apply andb_prop in Hnum as [Ha Hnum].
    destruct Hs as [[-> ->]|[-> ->]]; simpl in E; inversion E; subst.
    - discriminate Ha.
    - destruct q as [|b q]; [now apply Hq|]. simpl in Hnum.
      apply andb_prop in Hnum as [Hb' _].
      rewrite (Hu b (q ++ ws ++ r) eq_refl) in Hb'. discriminate. }
  split; [exact Hplural|].
  intros o w. unfold subgraph_cardinal. rewrite maps_union. split.
  - intros [H|H]; [now apply Hplural in H|].
    apply maps_subgraph_cardinal_singular in H
      as (neg & nf & ws & r & x & E & Hs & Hb & HU & Eo).
    destruct Hs as [[-> ->]|[-> ->]]; simpl in E; inversion E; subst.
    now exists ws, r, x.
  - intros (ws & r & x & -> & Hb & HU & ->). right.
    apply maps_subgraph_cardinal_singular.
    exists (str "-"), (qstr "negative: 'true' "), ws, r, x.
    repeat split; try assumption. now right.
Qed.

Lemma minus_one_takes_singular_witness :
  (forall o w,
     ~ maps (subgraph_cardinal_plural Sample.cardinal true Sample.data)
            (str "-1" ++ str "kg") o w)
  /\
  (forall o w,
     maps (subgraph_cardinal Sample.cardinal true Sample.data)
          (str "-1" ++ str "kg") o w <->
     exists ws r x,
       str "kg" = ws ++ r /\ blank ws /\ maps (unit_singular Sample.data) r x w /\
       o = cardinal_token (qstr "negative: 'true' ") (str "one") x).
Proof.
  apply (proj1 minus_one_takes_singular Sample.cardinal true Sample.data (str "kg")).
  - exact sample_cardinal_numeral.
  - intros a u' E. inversion E. reflexivity.
Defined.

(** ** The sign combinator and where its field lands *)

(** C5.  The sign combinator of line 86 is one transducer, composed into
    the decimal branch and into both cardinal branches.  It reads nothing
    and writes nothing, or reads [-] and writes the field
    [negative: "true"].  In the three branches it stands after the insertion
    that opens the block, so every output of the cardinal branch begins
    with [cardinal { ] and every output of the decimal branch with
    [decimal { ]: on [-12kg] the field [negative: "true"] is written inside
    the block, [cardinal { negative: "true" integer: "twelve" } units:
    "kilograms"], and not in front of it as the docstring of the class
    has it. *)
Theorem negative_field_inside_block :
  (forall neg nf w, maps optional_graph_negative neg nf w <-> sign neg nf /\ w = 0%Z)
  /\ (forall cardinal deterministic data s o w,
        maps (subgraph_cardinal cardinal deterministic data) s o w ->
        exists rest, o = str "cardinal { " ++ rest)
  /\ (forall decimal data s o w,
        maps (subgraph_decimal decimal data) s o w ->
        exists rest, o = str "decimal { " ++ rest)
  /\ Sample.tagger (str "-12kg")
     = [(qstr "measure { cardinal { negative: 'true' integer: 'twelve' } units: 'kilograms' }",
         0%Z)]
  /\ (forall w,
        ~ maps Sample.tagger (str "-12kg")
            (qstr "measure { negative: 'true' cardinal { integer: 'twelve' } units: 'kilograms' }")
            w).
Proof.
  split; [exact maps_optional_graph_negative|].
  split; [|split; [|split]].
  - intros cardinal deterministic data s o w H.
    unfold subgraph_cardinal in H. apply maps_union in H as [H|H].
    + apply maps_subgraph_cardinal_plural in H
        as (neg & nf & q & ws & u & c & x & w1 & w2 & _ & _ & _ & _ & _ & -> & _).
      unfold cardinal_token. eauto.
    + apply maps_subgraph_cardinal_singular in H
        as (neg & nf & ws & u & x & _ & _ & _ & _ & ->).
      unfold cardinal_token. eauto.
  - intros decimal data s o w H. unfold subgraph_decimal in H.
    apply maps_insert_then in H as (o' & _ & ->). eauto.
  - vm_compute. reflexivity.
  - intros w H. unfold maps in H.
    replace (Sample.tagger (str "-12kg"))
      with [(qstr "measure { cardinal { negative: 'true' integer: 'twelve' } units: 'kilograms' }",
             0%Z)] in H by (vm_compute; reflexivity).
    destruct H as [H|[]]. vm_compute in H. discriminate H.
Qed.

(** ** The per-unit transducer (lines 88-98 and 135-142) *)

Lemma maps_graph_unit2 data s o w :
  maps (graph_unit2 data) s o w <->
  exists ws u x,
    s = str "/" ++ ws ++ u /\ blank ws /\ maps (graph_unit data) u x w /\
    o = str "per" ++ NEMO_NON_BREAKING_SPACE ++ x.
Proof.
  unfold graph_unit2. split.
  - intros H.
    apply maps_concat in H as (s1 & r1 & o1 & o2 & w1 & v1 & -> & H1 & H & -> & ->).
    apply maps_cross in H1 as (-> & o' & H1).
    apply maps_accep in H1 as (-> & _ & ->).
    apply space_then_elim in H as (ws & r & -> & Hb & H).
    apply maps_insert_then in H as (x & H & ->).
    now exists ws, r, x.
  - intros (ws & u & x & -> & Hb & H & ->).
    replace w with (0 + w)%Z by lia. apply maps_concat_intro.
    + apply maps_cross. split; [reflexivity|]. exists (str "/").
      now apply maps_accep.
    + apply space_then_intro; [assumption|]. now apply insert_then_intro.
Qed.

Lemma maps_unit_graph data s o w :
  maps (unit_graph data) s o w <->
  exists p ws u x,
    s = p ++ ws ++ u /\ (p = str "/" \/ p = str "per") /\ blank ws /\
    maps (graph_unit data) u x w /\
    o = qstr "cardinal { integer: '-' } units: '"
        ++ str "per" ++ NEMO_NON_BREAKING_SPACE ++ x
        ++ qstr "' preserve_order: true".
Proof.
  unfold unit_graph. rewrite maps_insert_then. split.
  - intros (o0 & H & ->).
    apply maps_concat in H as (p & r1 & o1 & o2 & w1 & v1 & -> & H1 & H & -> & ->).
    apply maps_cross in H1 as (-> & o' & H1).
    apply space_then_elim in H as (ws & r & -> & Hb & H).
    apply maps_insert_then in H as (o3 & H & ->).
    apply maps_concat in H as (u & e & x & o4 & w2 & v2 & -> & Hu & H & -> & ->).
    apply maps_insert in H as (-> & -> & ->).
    exists p, ws, u, x. rewrite !app_nil_r.
    apply maps_union in H1 as [H1|H1]; apply maps_accep in H1 as (-> & _ & ->);
      replace (0 + (w2 + 0))%Z with w2 by lia; auto 10.
  - intros (p & ws & u & x & -> & Hp & Hb & Hu & ->).
    eexists. split; [|reflexivity].
    replace w with (0 + w)%Z by lia. apply maps_concat_intro.
    + apply maps_cross. split; [reflexivity|]. exists p. apply maps_union.
      destruct Hp as [-> | ->]; [left|right]; now apply maps_accep.
    + apply space_then_intro; [assumption|]. apply insert_then_intro.
      rewrite <- (app_nil_r u). replace w with (w + 0)%Z by lia.
      apply maps_concat_intro; [assumption|]. now apply maps_insert.
Qed.

(** C6.  The per-unit transducer [graph_unit2] reads [/], optional white
    space and a unit, and writes the word [per], the non-breaking
    separator and the expanded unit; the bare per-unit branch
    [unit_graph] does the same after [/] or [per].  The separator is not
    the ordinary space and holds no ordinary space.  On [10 km/h] the
    units string is [kilometers], the separator, [per], the separator,
    [hour]. *)
Theorem per_unit_non_breaking :
  (forall data s o w,
     maps (graph_unit2 data) s o w <->
     exists ws u x,
       s = str "/" ++ ws ++ u /\ blank ws /\ maps (graph_unit data) u x w /\
       o = str "per" ++ NEMO_NON_BREAKING_SPACE ++ x)
  /\ (forall data s o w,
        maps (unit_graph data) s o w <->
        exists p ws u x,
          s = p ++ ws ++ u /\ (p = str "/" \/ p = str "per") /\ blank ws /\
          maps (graph_unit data) u x w /\
          o = qstr "cardinal { integer: '-' } units: '"
              ++ str "per" ++ NEMO_NON_BREAKING_SPACE ++ x
              ++ qstr "' preserve_order: true")
  /\ NEMO_NON_BREAKING_SPACE <> NEMO_SPACE
  /\ ~ In " "%char NEMO_NON_BREAKING_SPACE
  /\ graph_unit2 Sample.data (str "/h")
     = [(str "per" ++ NEMO_NON_BREAKING_SPACE ++ str "hour", 0%Z)]
  /\ Sample.tagger (str "10 km/h")
     = [(qstr "measure { cardinal { integer: 'ten' } units: 'kilometers"
         ++ NEMO_NON_BREAKING_SPACE ++ str "per" ++ NEMO_NON_BREAKING_SPACE
         ++ qstr "hour' }", 0%Z)]
  /\ Sample.tagger (str "per h")
     = [(qstr "measure { cardinal { integer: '-' } units: 'per"
         ++ NEMO_NON_BREAKING_SPACE ++ qstr "hour' preserve_order: true }", 0%Z)].
Proof.
  split; [exact maps_graph_unit2|].
  split; [exact maps_unit_graph|].
  split; [discriminate|].
  split; [intros [H|[H|[]]]; discriminate H|].
  repeat split; vm_compute; reflexivity.
Qed.

(** ** The pluralized unit transducer (lines 70-83) *)

Lemma nbsp_of_space_no_space s : ~ In " "%char (nbsp_of_space s).
Proof.
  unfold nbsp_of_space. rewrite in_flat_map. intros (c & _ & H).
  destruct (ascii_dec c " "%char) as [->|Hn].
  - destruct H as [H|[H|[]]]; discriminate H.
  - destruct H as [H|[]]. congruence.
Qed.

Lemma maps_convert_space (A : wfst) s o w :
  maps (convert_space A) s o w <-> exists m, maps A s m w /\ o = nbsp_of_space m.
Proof.
  unfold convert_space. rewrite maps_compose. split.
  - intros (m & w1 & w2 & H1 & H2 & ->). unfold maps, rewrite_space in H2.
    destruct H2 as [H2|[]]. inversion H2; subst.
    exists m. split; [|reflexivity]. now replace (w1 + 0)%Z with w1 by lia.
  - intros (m & H & ->). exists m, w, 0%Z. repeat split; [assumption| |lia].
    now left.
Qed.

Lemma maps_degree (A : wfst) (d ds : word) s o w :
  maps ((A :@: accep d) :@: cross (accep d) ds) s o w <->
  maps A s d w /\ o = ds.
Proof.
  split.
  - intros H. inv_maps.
    match goal with H : maps A _ _ ?v |- _ =>
      replace (v + 0 + 0)%Z with v by lia end. auto.
  - intros [H ->]. apply maps_compose. exists d, w, 0%Z.
    repeat split; [| |lia].
    + apply maps_compose. exists d, w, 0%Z. repeat split; [assumption| |lia].
      now apply maps_accep.
    + apply maps_cross. split; [reflexivity|]. exists d. now apply maps_accep.
Qed.

Lemma maps_graph_unit_no_degrees data s c w :
  maps (graph_unit_no_degrees data) s c w <->
  maps (graph_unit_any_case data) s c w /\
  c <> str "degree Celsius" /\ c <> str "degree Fahrenheit".
Proof.
  unfold graph_unit_no_degrees. rewrite maps_optimize, maps_compose. split.
  - intros (m & w1 & w2 & H1 & H2 & ->).
    apply maps_difference in H2 as [H2 Hn]. apply maps_sigma in H2 as [-> ->].
    replace (w1 + 0)%Z with w1 by lia. split; [assumption|].
    split; intros ->; apply Hn; eexists; eexists; apply maps_union;
      [left|right]; now apply maps_accep.
  - intros (H & Hc & Hf). exists c, w, 0%Z. repeat split; [assumption| |lia].
    apply maps_difference. split; [now apply maps_sigma|].
    intros (o' & w' & H'). apply maps_union in H' as [H'|H'];
      apply maps_accep in H' as [-> _]; congruence.
Qed.

Lemma maps_graph_unit_plural data u o w :
  maps (graph_unit_plural data) u o w <->
  (exists c p w1 w2,
      maps (graph_unit_any_case data) u c w1 /\
      c <> str "degree Celsius" /\ c <> str "degree Fahrenheit" /\
      maps (SINGULAR_TO_PLURAL (suppletive_tsv data)) c p w2 /\
      o = nbsp_of_space p /\ w = (w1 + w2)%Z)
  \/ (maps (graph_unit_any_case data) u (str "degree Celsius") w /\
      o = str "degrees Celsius")
  \/ (maps (graph_unit_any_case data) u (str "degree Fahrenheit") w /\
      o = str "degrees Fahrenheit").
Proof.
  unfold graph_unit_plural.
  rewrite maps_optimize, !maps_union, !maps_optimize, !maps_degree,
    maps_convert_space.
  apply or_iff_compat_r. split.
  - intros (p & H & ->). apply maps_compose in H as (c & w1 & w2 & H1 & H2 & ->).
    apply maps_graph_unit_no_degrees in H1 as (H1 & Hc & Hf).
    now exists c, p, w1, w2.
  - intros (c & p & w1 & w2 & H1 & Hc & Hf & H2 & -> & ->).
    exists p. split; [|reflexivity]. apply maps_compose. exists c, w1, w2.
    repeat split; [|assumption]. now apply maps_graph_unit_no_degrees.
Qed.

(** C2.  The pluralized unit transducer has three kinds of paths: a
    canonical unit other than the two degree units goes through the
    singular-to-plural mapping and the space conversion, the canonical
    unit [degree Celsius] is written [degrees Celsius], and [degree
    Fahrenheit] is written [degrees Fahrenheit].  So an input whose
    canonical unit is [degree Celsius] has the output [degrees Celsius],
    an input with no canonical unit but the degree units has no other
    output, and no input has the output [degree Celsiuses] or [degree
    Fahrenheits]. *)
Theorem degree_units_pluralize_degree :
  (forall data u o w,
     maps (graph_unit_plural data) u o w <->
     (exists c p w1 w2,
         maps (graph_unit_any_case data) u c w1 /\
         c <> str "degree Celsius" /\ c <> str "degree Fahrenheit" /\
         maps (SINGULAR_TO_PLURAL (suppletive_tsv data)) c p w2 /\
         o = nbsp_of_space p /\ w = (w1 + w2)%Z)
     \/ (maps (graph_unit_any_case data) u (str "degree Celsius") w /\
         o = str "degrees Celsius")
     \/ (maps (graph_unit_any_case data) u (str "degree Fahrenheit") w /\
         o = str "degrees Fahrenheit"))
  /\ (forall data u w,
        (maps (graph_unit_any_case data) u (str "degree Celsius") w ->
         maps (graph_unit_plural data) u (str "degrees Celsius") w)
        /\
        (maps (graph_unit_any_case data) u (str "degree Fahrenheit") w ->
         maps (graph_unit_plural data) u (str "degrees Fahrenheit") w))
  /\ (forall data u o w,
        (forall c w', maps (graph_unit_any_case data) u c w' ->
                      c = str "degree Celsius" \/ c = str "degree Fahrenheit") ->
        maps (graph_unit_plural data) u o w ->
        o = str "degrees Celsius" \/ o = str "degrees Fahrenheit")
  /\ (forall data u o w,
        maps (graph_unit_plural data) u o w ->
        o <> str "degree Celsiuses" /\ o <> str "degree Fahrenheits")
  /\ graph_unit_plural Sample.data (str "C") = [(str "degrees Celsius", 0%Z)]
  /\ graph_unit_plural Sample.data (str "F") = [(str "degrees Fahrenheit", 0%Z)]
  /\ graph_unit_plural Sample.data (str "kg") = [(str "kilograms", 0%Z)]
  /\ graph_unit_plural Sample.data (str "ft") = [(str "feet", 0%Z)]
  /\ Sample.tagger (str "2 C")
     = [(qstr "measure { cardinal { integer: 'two' } units: 'degrees Celsius' }", 0%Z)].
Proof.
  split; [exact maps_graph_unit_plural|].
  split; [|split; [|split]].
  - intros data u w. split; intros H; apply maps_graph_unit_plural; auto.
  - intros data u o w Hdeg H. apply maps_graph_unit_plural in H
      as [(c & p & w1 & w2 & H1 & Hc & Hf & _)|[[_ ->]|[_ ->]]]; auto.
    apply Hdeg in H1 as [-> | ->]; congruence.
  - intros data u o w H. apply maps_graph_unit_plural in H
      as [(c & p & w1 & w2 & _ & _ & _ & _ & -> & _)|[[_ ->]|[_ ->]]];
      try (split; discriminate).
    split; intros E;
      apply (nbsp_of_space_no_space p); rewrite E; vm_compute; tauto.
  - repeat split; vm_compute; reflexivity.
Qed.

(** ** The math-equation branch (lines 201-219) *)

Lemma maps_delimiter d o w :
  maps delimiter d o w <-> (d = [] \/ d = str " ") /\ o = str " " /\ w = 0%Z.
Proof.
  unfold delimiter. rewrite maps_union, maps_accep, maps_insert. tauto.
Qed.

Lemma math_equation_reads_equals cardinal deterministic data s o w :
  maps (math_equation cardinal deterministic data) s o w -> In "="%char s.
Proof.
  unfold math_equation. intros H.
  apply maps_concat in H as (s1 & r1 & ? & ? & ? & ? & -> & _ & H & _ & _).
  apply maps_concat in H as (s2 & r2 & ? & ? & ? & ? & -> & _ & H & _ & _).
  apply maps_concat in H as (s3 & r3 & ? & ? & ? & ? & -> & _ & H & _ & _).
  apply maps_concat in H as (s4 & r4 & ? & ? & ? & ? & -> & _ & H & _ & _).
  apply maps_concat in H as (s5 & r5 & ? & ? & ? & ? & -> & _ & H & _ & _).
  apply maps_concat in H as (s6 & r6 & ? & ? & ? & ? & -> & _ & H & _ & _).
  apply maps_concat in H as (s7 & r7 & ? & ? & ? & ? & -> & H & _ & _ & _).
  apply maps_cross in H as (_ & ? & H). apply maps_accep in H as (-> & _).
  rewrite !in_app_iff. do 6 right. left. now left.
Qed.

Lemma math_reads_equals cardinal deterministic data s :
  accepts (math cardinal deterministic data) s -> In "="%char s.
Proof.
  intros (o & w & H). unfold math in H.
  apply maps_insert_then in H as (o1 & H & _).
  apply maps_concat in H as (s1 & e & ? & ? & ? & ? & -> & H & He & _ & _).
  apply maps_insert in He as (-> & _). rewrite app_nil_r.
  eapply math_equation_reads_equals, H.
Qed.

Lemma maps_math_intro cardinal deterministic data a op b c a' op' b' c'
      d1 d2 d3 d4 wa wb wc :
  maps (cardinal_graph cardinal deterministic) a a' wa ->
  In (op, op') (math_operations_tsv data) ->
  maps (cardinal_graph cardinal deterministic) b b' wb ->
  maps (cardinal_graph cardinal deterministic) c c' wc ->
  (d1 = [] \/ d1 = str " ") -> (d2 = [] \/ d2 = str " ") ->
  (d3 = [] \/ d3 = str " ") -> (d4 = [] \/ d4 = str " ") ->
  maps (math cardinal deterministic data)
       (a ++ d1 ++ op ++ d2 ++ b ++ d3 ++ str "=" ++ d4 ++ c)
       (math_token a' op' b' c') (wa + wb + wc).
Proof.
  intros Ha Hop Hb Hc H1 H2 H3 H4.
  unfold math, math_token. apply insert_then_intro.
  rewrite <- (app_nil_r (a ++ _)).
  replace (wa + wb + wc)%Z
    with ((wa + (0 + (0 + (0 + (wb + (0 + (0 + (0 + wc)))))))) + 0)%Z by lia.
  replace (a' ++ str " " ++ op' ++ str " " ++ b' ++ str " " ++ str "equals"
           ++ str " " ++ c' ++ qstr "' } preserve_order: true")
    with ((a' ++ str " " ++ op' ++ str " " ++ b' ++ str " " ++ str "equals"
           ++ str " " ++ c') ++ qstr "' } preserve_order: true")
    by (now rewrite <- !app_assoc).
  apply maps_concat_intro; [|now apply maps_insert].
  unfold math_equation.
  apply maps_concat_intro; [apply maps_union; now left|].
  apply maps_concat_intro; [now apply maps_delimiter|].
  apply maps_concat_intro; [now apply maps_string_map|].
  apply maps_concat_intro; [apply maps_union; left; now apply maps_delimiter|].
  apply maps_concat_intro; [assumption|].
  apply maps_concat_intro; [now apply maps_delimiter|].
  apply maps_concat_intro.
  { apply maps_cross. split; [reflexivity|]. exists (str "=").
    now apply maps_accep. }
  apply maps_concat_intro; [now apply maps_delimiter|].
  apply maps_union. now left.
Qed.

(** C4, as the code has it.  The math-equation branch reads an equation
    written with the [=] sign: operands that the cardinal grammar reads,
    an operator of the table of math operations, and one space or nothing
    at each delimiter.  It writes the single token [units: "math"
    cardinal { integer: "..." } preserve_order: true] whose integer field
    holds the spelled equation: what the cardinal grammar writes for the
    operands, the word of the operator, [equals], one space in between.
    Every input that the branch accepts holds [=].  So [2+2=4] gives the
    integer field [two plus two equals four]. *)
Theorem math_equation_spelled :
  (forall cardinal deterministic data a op b c a' op' b' c' d1 d2 d3 d4 wa wb wc,
     maps (cardinal_graph cardinal deterministic) a a' wa ->
     In (op, op') (math_operations_tsv data) ->
     maps (cardinal_graph cardinal deterministic) b b' wb ->
     maps (cardinal_graph cardinal deterministic) c c' wc ->
     (d1 = [] \/ d1 = str " ") -> (d2 = [] \/ d2 = str " ") ->
     (d3 = [] \/ d3 = str " ") -> (d4 = [] \/ d4 = str " ") ->
     maps (math cardinal deterministic data)
          (a ++ d1 ++ op ++ d2 ++ b ++ d3 ++ str "=" ++ d4 ++ c)
          (math_token a' op' b' c') (wa + wb + wc))
  /\ (forall cardinal deterministic data s,
        accepts (math cardinal deterministic data) s -> In "="%char s)
  /\ math Sample.cardinal true Sample.data (str "2+2=4")
     = [(qstr "units: 'math' cardinal { integer: 'two plus two equals four' } preserve_order: true",
         0%Z)]
  /\ Sample.tagger (str "2 + 2 = 4")
     = [(qstr "measure { units: 'math' cardinal { integer: 'two plus two equals four' } preserve_order: true }",
         0%Z)].
Proof.
  split; [exact maps_math_intro|].
  split; [exact math_reads_equals|].
  split; vm_compute; reflexivity.
Qed.

Lemma math_equation_spelled_witness :
  maps (math Sample.cardinal true Sample.data)
       (str "2" ++ [] ++ str "+" ++ [] ++ str "2" ++ [] ++ str "=" ++ [] ++ str "4")
       (math_token (str "two") (str "plus") (str "two") (str "four")) (0 + 0 + 0)
  /\ In "="%char (str "2+2=4").
Proof.
  split.
  - apply (proj1 math_equation_spelled Sample.cardinal true Sample.data);
      try (now left); try (apply maps_string_map; split; [|reflexivity]);
      vm_compute; tauto.
  - apply (proj1 (proj2 math_equation_spelled) Sample.cardinal true Sample.data).
    exists (math_token (str "two") (str "plus") (str "two") (str "four")), 0%Z.
    vm_compute. now left.
Defined.

(** The claim C4 as stated fails: the branch has no path at all on the
    input [2 plus 2 equals 4]. *)
Lemma math_rejects_spelled_input :
  ~ accepts (math Sample.cardinal true Sample.data) (str "2 plus 2 equals 4").
Proof.
  intros H. apply math_reads_equals in H. vm_compute in H.
  repeat (destruct H as [H|H]; [discriminate H|]). exact H.
Qed.

(** ** The house number of an address (lines 252-259) *)

Section SymbolPower.

Variable A : wfst.
Variable p : ascii -> bool.
Variable f : ascii -> ascii.
Hypothesis A_sym : forall s o w,
  maps A s o w <-> exists c, s = [c] /\ p c = true /\ o = [f c] /\ w = 0%Z.

Lemma maps_power_sym n : forall s o w,
  maps (power A n) s o w <->
  List.length s = n /\ forallb p s = true /\ o = map f s /\ w = 0%Z.
Proof.
  induction n as [|n IH]; intros s o w; simpl.
  - rewrite maps_accep. split.
    + intros (-> & -> & ->). auto.
    + intros (Hl & _ & -> & ->). apply length_zero_iff_nil in Hl. now subst.
  - rewrite maps_concat. split.
    + intros (s1 & s2 & o1 & o2 & w1 & w2 & -> & H1 & H2 & -> & ->).
      apply A_sym in H1 as (c & -> & Hp & -> & ->).
      apply IH in H2 as (Hl & Hs & -> & ->). simpl. rewrite Hp, Hs, Hl. auto.
    + intros (Hl & Hp & -> & ->). destruct s as [|c s]; [discriminate|].
      simpl in *. apply andb_prop in Hp as [Hc Hs].
      exists [c], s, [f c], (map f s), 0%Z, 0%Z. repeat split.
      * apply A_sym. now exists c.
      * apply IH. repeat split; [lia|assumption].
Qed.

Lemma maps_upto_sym n : forall s o w,
  maps (upto A n) s o w <->
  (List.length s <= n)%nat /\ forallb p s = true /\ o = map f s /\ w = 0%Z.
Proof.
  induction n as [|n IH]; intros s o w; simpl.
  - rewrite maps_accep. split.
    + intros (-> & -> & ->). auto.
    + intros (Hl & _ & -> & ->). destruct s; [auto|simpl in Hl; lia].
  - rewrite maps_union, maps_accep, maps_concat. split.
    + intros [(-> & -> & ->)|(s1 & s2 & o1 & o2 & w1 & w2 & -> & H1 & H2 & -> & ->)].
      * simpl. repeat split. lia.
      * apply A_sym in H1 as (c & -> & Hp & -> & ->).
        apply IH in H2 as (Hl & Hs & -> & ->). simpl. rewrite Hp, Hs.
        repeat split. lia.
    + intros (Hl & Hp & -> & ->). destruct s as [|c s]; [now left|right].
      simpl in *. apply andb_prop in Hp as [Hc Hs].
      exists [c], s, [f c], (map f s), 0%Z, 0%Z. repeat split.
      * apply A_sym. now exists c.
      * apply IH. repeat split; [lia|assumption].
Qed.

Lemma maps_closure_bounded_sym lo hi s o w :
  (lo <= hi)%nat ->
  maps (closure A lo (Some hi)) s o w <->
  (lo <= List.length s <= hi)%nat /\ forallb p s = true /\ o = map f s /\ w = 0%Z.
Proof.
  intros Hle. unfold closure. rewrite maps_concat. split.
  - intros (s1 & s2 & o1 & o2 & w1 & w2 & -> & H1 & H2 & -> & ->).
    apply maps_power_sym in H1 as (L1 & P1 & -> & ->).
    apply maps_upto_sym in H2 as (L2 & P2 & -> & ->).
    rewrite length_app, forallb_app, P1, P2, map_app. repeat split; lia.
  - intros (Hl & Hp & -> & ->).
    rewrite <- (firstn_skipn lo s) in Hp |- *.
    apply forallb_app_true in Hp as [P1 P2].
    exists (firstn lo s), (skipn lo s), (map f (firstn lo s)),
      (map f (skipn lo s)), 0%Z, 0%Z.
    rewrite map_app. repeat split.
    + apply maps_power_sym. repeat split; [|assumption].
      rewrite length_firstn. lia.
    + apply maps_upto_sym. repeat split; [|assumption].
      rewrite length_skipn. lia.
Qed.

End SymbolPower.

Lemma fold_min_le l : forall a,
  (fold_left Z.min l a <= a)%Z /\
  forall x, In x l -> (fold_left Z.min l a <= x)%Z.
Proof.
  induction l as [|y l IH]; intros a; simpl.
  - split; [lia|intros x []].
  - destruct (IH (Z.min a y)) as [H1 H2]. split; [lia|].
    intros x [<-|Hx]; [lia|auto].
Qed.

Lemma fold_min_in l : forall a,
  fold_left Z.min l a = a \/ In (fold_left Z.min l a) l.
Proof.
  induction l as [|y l IH]; intros a; simpl; [now left|].
  destruct (IH (Z.min a y)) as [H|H]; [|now right; right].
  rewrite H. destruct (Z.min_spec a y) as [[_ ->]|[_ ->]]; auto.
Qed.

(** The outputs that a shortest-path decoder chooses among are the paths
    of least cost. *)
Lemma in_cheapest (T : wfst) s o w :
  In (o, w) (cheapest T s) <->
  maps T s o w /\ forall o' w', maps T s o' w' -> (w <= w')%Z.
Proof.
  unfold cheapest, min_cost, maps. destruct (T s) as [|a l] eqn:E.
  - split; [intros []|intros [[] _]].
  - rewrite filter_In. simpl snd.
    destruct (fold_min_le (map snd l) (snd a)) as [Ha Hl].
    split.
    + intros [Hin Hm]. apply Z.eqb_eq in Hm. split; [assumption|].
      intros o' w' [Ea|H']; [subst a; simpl in *; lia|].
      rewrite Hm. apply Hl. apply in_map_iff. now exists (o', w').
    + intros [Hin Hmin]. split; [assumption|]. apply Z.eqb_eq.
      assert (Hge : (fold_left Z.min (map snd l) (snd a) <= w)%Z).
      { destruct Hin as [Ea|Hin]; [subst a; exact Ha|].
        apply Hl. apply in_map_iff. now exists (o, w). }
      assert (Hle : (w <= fold_left Z.min (map snd l) (snd a))%Z).
      { destruct (fold_min_in (map snd l) (snd a)) as [->|Hm].
        - destruct a as [oa wa]. apply (Hmin oa). now left.
        - apply in_map_iff in Hm as [[o' w'] [Ew Hm]]. simpl in Ew.
          rewrite <- Ew. apply (Hmin o'). now right. }
      lia.
Qed.

Lemma maps_address_num_split cardinal s o w :
  maps (address_num_split cardinal) s o w <->
  exists p x o1 o2 w1 w2,
    s = p ++ x /\
    (1 <= List.length p <= 2)%nat /\ List.length x = 2%nat /\
    forallb is_digit p = true /\ forallb is_digit x = true /\
    maps (graph_hundred_component_at_least_one_none_zero_digit cardinal) p o1 w1 /\
    maps (address_suffix cardinal) x o2 w2 /\
    o = o1 ++ str " " ++ o2 /\ w = (w1 + w2)%Z.
Proof.
  unfold address_num_split, insert_space. fold (address_suffix cardinal). split.
  - intros H.
    apply maps_concat in H as (p & x & o1 & o2' & w1 & w2 & -> & H1 & H & -> & ->).
    apply maps_insert_then in H as (o2 & H & ->).
    apply maps_compose in H1 as (m1 & v1 & v2 & Hd1 & H1 & ->).
    apply (maps_closure_bounded_sym NEMO_DIGIT is_digit (fun c => c) maps_NEMO_DIGIT)
      in Hd1 as (L1 & D1 & -> & ->); [|lia].
    apply maps_compose in H as (m2 & v3 & v4 & Hd2 & H2 & ->).
    apply (maps_power_sym NEMO_DIGIT is_digit (fun c => c) maps_NEMO_DIGIT)
      in Hd2 as (L2 & D2 & -> & ->).
    rewrite map_id in *. exists p, x, o1, o2, v2, v4. auto 10.
  - intros (p & x & o1 & o2 & w1 & w2 & -> & L1 & L2 & D1 & D2 & H1 & H2 & -> & ->).
    apply maps_concat_intro.
    + apply maps_compose. exists p, 0%Z, w1. repeat split; [|assumption].
      apply (maps_closure_bounded_sym NEMO_DIGIT is_digit (fun c => c)
               maps_NEMO_DIGIT); [lia|].
      rewrite map_id. auto.
    + apply insert_then_intro. apply maps_compose. exists x, 0%Z, w2.
      repeat split; [|assumption].
      apply (maps_power_sym NEMO_DIGIT is_digit (fun c => c) maps_NEMO_DIGIT).
      rewrite map_id. auto.
Qed.

Lemma maps_address_num_weighted cardinal s o w :
  maps (address_num_weighted cardinal) s o w <->
  exists p x o1 o2 w1 w2,
    s = p ++ x /\
    (1 <= List.length p <= 2)%nat /\ List.length x = 2%nat /\
    forallb is_digit p = true /\ forallb is_digit x = true /\
    maps (graph_hundred_component_at_least_one_none_zero_digit cardinal) p o1 w1 /\
    maps (address_suffix cardinal) x o2 w2 /\
    o = o1 ++ str " " ++ o2 /\ w = (w1 + w2 - 1)%Z.
Proof.
  unfold address_num_weighted. rewrite maps_add_weight, maps_compose. split.
  - intros (m & v1 & v2 & Hd & H & E).
    apply (maps_closure_bounded_sym NEMO_DIGIT is_digit (fun c => c) maps_NEMO_DIGIT)
      in Hd as (L & D & -> & ->); [|lia].
    rewrite map_id in H. apply maps_address_num_split in H
      as (p & x & o1 & o2 & w1 & w2 & -> & L1 & L2 & D1 & D2 & H1 & H2 & -> & ->).
    exists p, x, o1, o2, w1, w2. repeat split; try assumption; lia.
  - intros (p & x & o1 & o2 & w1 & w2 & -> & L1 & L2 & D1 & D2 & H1 & H2 & -> & ->).
    exists (p ++ x), 0%Z, (w1 + w2)%Z. repeat split; [| |lia].
    + apply (maps_closure_bounded_sym NEMO_DIGIT is_digit (fun c => c)
               maps_NEMO_DIGIT); [lia|].
      rewrite map_id, length_app, forallb_app, D1, D2. repeat split; lia.
    + apply maps_address_num_split. exists p, x, o1, o2, w1, w2. auto 10.
Qed.

Lemma address_suffix_unweighted cardinal :
  unweighted (graph_hundred_component_at_least_one_none_zero_digit cardinal) ->
  unweighted (address_suffix cardinal).
Proof.
  intros Hh s o w H. unfold address_suffix in H. inv_maps;
    match goal with H : maps (graph_hundred_component_at_least_one_none_zero_digit _) _ _ _ |- _ =>
      apply Hh in H; subst; reflexivity end.
Qed.

Lemma split_cost cardinal s o w :
  unweighted (graph_hundred_component_at_least_one_none_zero_digit cardinal) ->
  maps (address_num_weighted cardinal) s o w -> w = (-1)%Z.
Proof.
  intros Hh H. apply maps_address_num_weighted in H
    as (p & x & o1 & o2 & w1 & w2 & _ & _ & _ & _ & _ & H1 & H2 & _ & ->).
  apply Hh in H1. apply (address_suffix_unweighted cardinal Hh) in H2. lia.
Qed.

Lemma string_map_unweighted l : unweighted (string_map l).
Proof. intros s o w H. now apply maps_string_map in H. Qed.

(** C3.  In the house-number grammar the split-spelling path reads a
    prefix of one or two digits and a suffix of two digits, so inputs of
    three or four digits only, and it carries the bias [-0.001]; the
    generic cardinal graph is the other operand of the union, so it stays
    an accepting path for every input that it reads, of any length.  When
    the injected cardinal graphs are unweighted, on every input that both
    paths accept the split path is strictly cheaper, and every output of
    least cost is an output of the split path. *)
Theorem address_split_preferred :
  (forall cardinal s o w,
     maps (address_num_weighted cardinal) s o w <->
     exists p x o1 o2 w1 w2,
       s = p ++ x /\
       (1 <= List.length p <= 2)%nat /\ List.length x = 2%nat /\
       forallb is_digit p = true /\ forallb is_digit x = true /\
       maps (graph_hundred_component_at_least_one_none_zero_digit cardinal) p o1 w1 /\
       maps (address_suffix cardinal) x o2 w2 /\
       o = o1 ++ str " " ++ o2 /\ w = (w1 + w2 - 1)%Z)
  /\ (forall cardinal s o w,
        maps (address_num_weighted cardinal) s o w ->
        (3 <= List.length s <= 4)%nat /\ forallb is_digit s = true)
  /\ (forall cardinal s o w,
        maps (graph cardinal) s o w -> maps (address_num cardinal) s o w)
  /\ (forall cardinal,
        unweighted (graph cardinal) ->
        unweighted (graph_hundred_component_at_least_one_none_zero_digit cardinal) ->
        forall s o1 w1 o2 w2,
          maps (address_num_weighted cardinal) s o1 w1 ->
          maps (graph cardinal) s o2 w2 ->
          (w1 < w2)%Z /\
          forall o w, In (o, w) (cheapest (address_num cardinal) s) ->
                      maps (address_num_weighted cardinal) s o w /\ w = (-1)%Z)
  /\ address_num Sample.cardinal (str "2788")
     = [(str "twenty seven eighty eight", (-1)%Z);
        (str "two thousand seven hundred eighty eight", 0%Z)]
  /\ cheapest (address_num Sample.cardinal) (str "2788")
     = [(str "twenty seven eighty eight", (-1)%Z)]
  /\ cheapest (address_num Sample.cardinal) (str "905")
     = [(str "nine zero five", (-1)%Z)]
  /\ address_num Sample.cardinal (str "95051")
     = [(str "ninety five thousand fifty one", 0%Z)].
Proof.
  split; [exact maps_address_num_weighted|].
  split; [|split; [|split]].
  - intros cardinal s o w H. apply maps_address_num_weighted in H
      as (p & x & _ & _ & _ & _ & -> & L1 & L2 & D1 & D2 & _).
    rewrite length_app, forallb_app, D1, D2. split; [lia|reflexivity].
  - intros cardinal s o w H. apply maps_union. now right.
  - intros cardinal Hg Hh s o1 w1 o2 w2 H1 H2.
    assert (E1 := split_cost _ _ _ _ Hh H1). assert (E2 := Hg _ _ _ H2). subst w1 w2.
    split; [lia|]. intros o w Hc. apply in_cheapest in Hc as [Hm Hmin].
    unfold address_num in Hm. apply maps_union in Hm as [Hm|Hm].
    + split; [assumption|]. exact (split_cost _ _ _ _ Hh Hm).
    + apply Hg in Hm. subst w.
      assert (K : (0 <= -1)%Z).
      { apply (Hmin o1). apply maps_union. now left. }
      lia.
  - repeat split; vm_compute; reflexivity.
Qed.

Lemma address_split_preferred_witness :
  ((-1) < 0)%Z /\
  forall o w, In (o, w) (cheapest (address_num Sample.cardinal) (str "2788")) ->
              maps (address_num_weighted Sample.cardinal) (str "2788") o w
              /\ w = (-1)%Z.
Proof.
  apply (proj1 (proj2 (proj2 (proj2 address_split_preferred))) Sample.cardinal
           (string_map_unweighted _) (string_map_unweighted _)
           (str "2788") (str "twenty seven eighty eight") (-1)%Z
           (str "two thousand seven hundred eighty eight") 0%Z).
  - vm_compute. now left.
  - vm_compute. tauto.
Defined.

(** ** The outputs and the token shape of the specification *)

Lemma maps_then_insert (A : wfst) y s o w :
  maps (A :+: insert y) s o w -> exists o', maps A s o' w /\ o = o' ++ y.
Proof.
  intros H.
  apply maps_concat in H as (s1 & e & o1 & q & w1 & w2 & -> & H & Hq & -> & ->).
  apply maps_insert in Hq as (-> & -> & ->).
  rewrite app_nil_r. replace (w1 + 0)%Z with w1 by lia. eauto.
Qed.

Ltac app_eq := repeat rewrite <- app_assoc; reflexivity.

Lemma maps_then_insert_iff (A : wfst) y s o w :
  maps (A :+: insert y) s o w <-> exists o', maps A s o' w /\ o = o' ++ y.
Proof.
  split; [apply maps_then_insert|]. intros (o' & H & ->).
  rewrite <- (app_nil_r s). replace w with (w + 0)%Z by lia.
  apply maps_concat_intro; [assumption|now apply maps_insert].
Qed.

Lemma maps_measure_fst cardinal decimal fraction deterministic lm data s o w :
  maps (measure_fst cardinal decimal fraction deterministic lm data) s o w <->
  exists body,
    maps (final_graph cardinal decimal fraction deterministic lm data) s body w /\
    o = str "measure { " ++ body ++ str " }".
Proof.
  unfold measure_fst, optimize, add_tokens. rewrite maps_insert_then. split.
  - intros (o1 & H & ->). apply maps_then_insert in H as (body & H & ->).
    now exists body.
  - intros (body & H & ->). eexists. split; [|reflexivity].
    apply maps_then_insert_iff. now exists body.
Qed.



(** ** The order of the operands of a union

    The paths of a union are the paths of its operands, whatever their
    order, and so are its paths of least cost.  The sources hold no
    decoder: which of several paths of the same least cost a decoder
    returns is not decided by [MeasureFst]. *)

Lemma maps_union_comm (A B : wfst) s o w :
  maps (A :|: B) s o w <-> maps (B :|: A) s o w.
Proof. rewrite !maps_union. tauto. Qed.

Lemma cheapest_union_comm (A B : wfst) s o w :
  In (o, w) (cheapest (A :|: B) s) <-> In (o, w) (cheapest (B :|: A) s).
Proof.
  rewrite !in_cheapest. split; intros [H Hmin]; (split; [now apply maps_union_comm|]);
    intros o' w' H'; apply (Hmin o'); now apply maps_union_comm.
Qed.

(** * Further properties of the branches *)

Lemma maps_accep_then (B : wfst) x s o w :
  maps (accep x :+: B) s o w <->
  exists r o', s = x ++ r /\ maps B r o' w /\ o = x ++ o'.
Proof.
  split.
  - intros H.
    apply maps_concat in H as (s1 & r & o1 & o' & w1 & w2 & -> & H1 & H & -> & ->).
    apply maps_accep in H1 as (-> & -> & ->). now exists r, o'.
  - intros (r & o' & -> & H & ->). replace w with (0 + w)%Z by lia.
    apply maps_concat_intro; [now apply maps_accep|assumption].
Qed.

Lemma maps_delete_dash_then (B : wfst) s o w :
  maps (cross (accep (str "-")) [] :+: B) s o w <->
  exists r, s = str "-" ++ r /\ maps B r o w.
Proof.
  split.
  - intros H.
    apply maps_concat in H as (s1 & r & o1 & o' & w1 & w2 & -> & H1 & H & -> & ->).
    apply maps_cross in H1 as (-> & x & H1).
    apply maps_accep in H1 as (-> & _ & ->). now exists r.
  - intros (r & -> & H). replace w with (0 + w)%Z by lia.
    change o with ([] ++ o). apply maps_concat_intro; [|assumption].
    apply maps_cross. split; [reflexivity|]. exists (str "-").
    now apply maps_accep.
Qed.

(** X1.  The decimal branch (lines 104-111): an optional sign, a decimal
    literal read by the injected decimal graph, optional white space and
    a unit part; the block takes the sign field and the fields of the
    literal, and the unit part always goes through the pluralized unit
    transducer, whatever the quantity.  The branch adds no cost of its
    own. *)
Theorem decimal_branch_plural_unit :
  (forall decimal data s o w,
     maps (subgraph_decimal decimal data) s o w <->
     exists neg nf q ws u body x w1 w2,
       s = neg ++ q ++ ws ++ u /\ sign neg nf /\ blank ws /\
       maps (final_graph_wo_negative decimal) q body w1 /\
       maps (unit_plural data) u x w2 /\
       o = str "decimal { " ++ nf ++ body ++ str " } " ++ x /\
       w = (w1 + w2)%Z)
  /\ Sample.tagger (str ".5kg")
     = [(qstr "measure { decimal { fractional_part: 'five' } units: 'kilograms' }",
         0%Z)]
  /\ Sample.tagger (str "-.5 kg")
     = [(qstr "measure { decimal { negative: 'true' fractional_part: 'five' } units: 'kilograms' }",
         0%Z)].
Proof.
  split; [|split; vm_compute; reflexivity].
  intros decimal data s o w. unfold subgraph_decimal. split.
  - intros H. apply maps_insert_then in H as (o1 & H & ->).
    apply maps_concat in H as (neg & r1 & nf & o2 & wn & v1 & -> & Hn & H & -> & ->).
    apply maps_optional_graph_negative in Hn as [Hs ->].
    apply maps_concat in H as (q & r2 & body & o3 & w1 & v2 & -> & Hd & H & -> & ->).
    apply space_then_elim in H as (ws & u & -> & Hb & H).
    apply maps_insert_then in H as (x & H & ->).
    exists neg, nf, q, ws, u, body, x, w1, v2. repeat split; assumption.
  - intros (neg & nf & q & ws & u & body & x & w1 & w2
            & -> & Hs & Hb & Hd & HU & -> & ->).
    apply insert_then_intro. replace (w1 + w2)%Z with (0 + (w1 + w2))%Z by lia.
    apply maps_concat_intro; [now apply maps_optional_graph_negative|].
    apply maps_concat_intro; [assumption|].
    apply space_then_intro; [assumption|]. now apply insert_then_intro.
Qed.

(** X2.  The digit-dash-alpha forms (lines 144-151 and 163-170): a
    quantity, a dash and a non-empty run of ASCII letters, copied
    unchanged into the units field.  The cardinal form keeps the dash at
    the end of its integer field; the decimal form deletes it. *)
Theorem digit_dash_alpha_forms :
  (forall cardinal deterministic s o w,
     maps (cardinal_dash_alpha cardinal deterministic) s o w <->
     exists q c a,
       s = q ++ str "-" ++ a /\
       maps (cardinal_graph cardinal deterministic) q c w /\
       a <> [] /\ forallb is_alpha a = true /\
       o = qstr "cardinal { integer: '" ++ c ++ str "-" ++ qstr "' } units: '"
           ++ a ++ qstr "'")
  /\ (forall decimal s o w,
        maps (decimal_dash_alpha decimal) s o w <->
        exists q body a,
          s = q ++ str "-" ++ a /\
          maps (final_graph_wo_negative decimal) q body w /\
          a <> [] /\ forallb is_alpha a = true /\
          o = str "decimal { " ++ body ++ qstr " } units: '" ++ a ++ qstr "'")
  /\ Sample.tagger (str "5-bedroom")
     = [(qstr "measure { cardinal { integer: 'five-' } units: 'bedroom' }", 0%Z)]
  /\ Sample.tagger (str "4.5-inch")
     = [(qstr "measure { decimal { integer_part: 'four' fractional_part: 'five' } units: 'inch' }",
         0%Z)].
Proof.
  split; [|split; [|split; vm_compute; reflexivity]].
  - intros cardinal deterministic s o w. unfold cardinal_dash_alpha.
    rewrite maps_insert_then. split.
    + intros (o1 & H & ->).
      apply maps_concat in H as (q & r & c & o2 & w1 & w2 & -> & Hc & H & -> & ->).
      apply maps_accep_then in H as (r' & o3 & -> & H & ->).
      apply maps_insert_then in H as (o4 & H & ->).
      apply maps_then_insert in H as (a' & H & ->).
      apply maps_alpha_plus in H as (Hne & Hal & -> & ->).
      exists q, c, r'. replace (w1 + 0)%Z with w1 by lia. auto 10.
    + intros (q & c & a & -> & Hc & Hne & Hal & ->).
      eexists. split; [|reflexivity]. replace w with (w + 0)%Z by lia.
      apply maps_concat_intro; [assumption|].
      apply maps_accep_then. exists a. eexists. split; [reflexivity|].
      split; [|reflexivity]. apply insert_then_intro.
      apply maps_then_insert_iff. exists a. split; [|reflexivity].
      now apply maps_alpha_plus.
  - intros decimal s o w. unfold decimal_dash_alpha.
    rewrite maps_insert_then. split.
    + intros (o1 & H & ->).
      apply maps_concat in H as (q & r & c & o2 & w1 & w2 & -> & Hc & H & -> & ->).
      apply maps_delete_dash_then in H as (r' & -> & H).
      apply maps_insert_then in H as (o4 & H & ->).
      apply maps_then_insert in H as (a' & H & ->).
      apply maps_alpha_plus in H as (Hne & Hal & -> & ->).
      exists q, c, r'. replace (w1 + 0)%Z with w1 by lia. auto 10.
    + intros (q & body & a & -> & Hc & Hne & Hal & ->).
      eexists. split; [|reflexivity]. replace w with (w + 0)%Z by lia.
      apply maps_concat_intro; [assumption|].
      apply maps_delete_dash_then. exists a. split; [reflexivity|].
      apply insert_then_intro.
      apply maps_then_insert_iff. exists a. split; [|reflexivity].
      now apply maps_alpha_plus.
Qed.

(** X3.  The alpha-dash-digit forms (lines 153-161 and 180-188): a
    non-empty run of ASCII letters, a dash and a quantity.  The letters and
    the dash make the units field, the quantity follows in its block, and
    the token is flagged [preserve_order]. *)
Theorem alpha_dash_digit_forms :
  (forall cardinal deterministic s o w,
     maps (alpha_dash_cardinal cardinal deterministic) s o w <->
     exists a q c,
       s = a ++ str "-" ++ q /\
       a <> [] /\ forallb is_alpha a = true /\
       maps (cardinal_graph cardinal deterministic) q c w /\
       o = qstr "units: '" ++ a ++ str "-" ++ qstr "'"
           ++ qstr " cardinal { integer: '" ++ c
           ++ qstr "' } preserve_order: true")
  /\ (forall decimal s o w,
        maps (alpha_dash_decimal decimal) s o w <->
        exists a q body,
          s = a ++ str "-" ++ q /\
          a <> [] /\ forallb is_alpha a = true /\
          maps (final_graph_wo_negative decimal) q body w /\
          o = qstr "units: '" ++ a ++ str "-" ++ qstr "'"
              ++ str " decimal { " ++ body ++ str " } preserve_order: true")
  /\ Sample.tagger (str "category-5")
     = [(qstr "measure { units: 'category-' cardinal { integer: 'five' } preserve_order: true }",
         0%Z)].
Proof.
  split; [|split; [|vm_compute; reflexivity]].
  - intros cardinal deterministic s o w. unfold alpha_dash_cardinal.
    rewrite maps_insert_then. split.
    + intros (o1 & H & ->).
      apply maps_concat in H as (a & r & a' & o2 & w1 & w2 & -> & Ha & H & -> & ->).
      apply maps_alpha_plus in Ha as (Hne & Hal & -> & ->).
      apply maps_accep_then in H as (q & o3 & -> & H & ->).
      apply maps_insert_then in H as (o4 & H & ->).
      apply maps_insert_then in H as (o5 & H & ->).
      apply maps_then_insert in H as (c & H & ->).
      exists a, q, c. auto 10.
    + intros (a & q & c & -> & Hne & Hal & Hc & ->).
      eexists. split; [|reflexivity]. replace w with (0 + w)%Z by lia.
      apply maps_concat_intro; [now apply maps_alpha_plus|].
      apply maps_accep_then. exists q. eexists. split; [reflexivity|].
      split; [|reflexivity]. do 2 apply insert_then_intro.
      apply maps_then_insert_iff. now exists c.
  - intros decimal s o w. unfold alpha_dash_decimal.
    rewrite maps_insert_then. split.
    + intros (o1 & H & ->).
      apply maps_concat in H as (a & r & a' & o2 & w1 & w2 & -> & Ha & H & -> & ->).
      apply maps_alpha_plus in Ha as (Hne & Hal & -> & ->).
      apply maps_accep_then in H as (q & o3 & -> & H & ->).
      apply maps_insert_then in H as (o4 & H & ->).
      apply maps_insert_then in H as (o5 & H & ->).
      apply maps_then_insert in H as (c & H & ->).
      exists a, q, c. auto 10.
    + intros (a & q & c & -> & Hne & Hal & Hc & ->).
      eexists. split; [|reflexivity]. replace w with (0 + w)%Z by lia.
      apply maps_concat_intro; [now apply maps_alpha_plus|].
      apply maps_accep_then. exists q. eexists. split; [reflexivity|].
      split; [|reflexivity]. do 2 apply insert_then_intro.
      apply maps_then_insert_iff. now exists c.
Qed.

(** X4.  The size notation (lines 172-178): a decimal literal followed at
    once by [x] or [X], with no white space read in between; either
    letter is written as the unit [x]. *)
Theorem decimal_times_form :
  (forall decimal s o w,
     maps (decimal_times decimal) s o w <->
     exists q t body,
       s = q ++ t /\ (t = str "x" \/ t = str "X") /\
       maps (final_graph_wo_negative decimal) q body w /\
       o = str "decimal { " ++ body ++ qstr " } units: '" ++ str "x" ++ qstr "'")
  /\ Sample.tagger (str "4.5X")
     = [(qstr "measure { decimal { integer_part: 'four' fractional_part: 'five' } units: 'x' }",
         0%Z)].
Proof.
  split; [|vm_compute; reflexivity].
  intros decimal s o w. unfold decimal_times. rewrite maps_insert_then. split.
  - intros (o1 & H & ->).
    apply maps_concat in H as (q & t & body & o2 & w1 & w2 & -> & Hd & H & -> & ->).
    apply maps_insert_then in H as (o3 & H & ->).
    apply maps_then_insert in H as (o4 & H & ->).
    apply maps_cross in H as (-> & x & H).
    exists q, t, body.
    apply maps_union in H as [H|H]; apply maps_accep in H as (-> & _ & ->);
      replace (w1 + 0)%Z with w1 by lia; auto 10.
  - intros (q & t & body & -> & Ht & Hd & ->).
    eexists. split; [|reflexivity]. replace w with (w + 0)%Z by lia.
    apply maps_concat_intro; [assumption|]. apply insert_then_intro.
    apply maps_then_insert_iff. exists (str "x"). split; [|reflexivity].
    apply maps_cross. split; [reflexivity|]. exists t. apply maps_union.
    destruct Ht as [-> | ->]; [left|right]; now apply maps_accep.
Qed.

(** X5.  The fraction branch (lines 190-192): a fraction read by the
    injected fraction graph, optional white space and a unit part, which
    always goes through the pluralized unit transducer.  The branch has
    no sign combinator of its own. *)
Theorem fraction_branch_plural_unit :
  (forall fraction data s o w,
     maps (subgraph_fraction fraction data) s o w <->
     exists q ws u body x w1 w2,
       s = q ++ ws ++ u /\ blank ws /\
       maps (fraction_graph fraction) q body w1 /\
       maps (unit_plural data) u x w2 /\
       o = str "fraction { " ++ body ++ str " } " ++ x /\
       w = (w1 + w2)%Z)
  /\ Sample.tagger (str "1/2 kg")
     = [(qstr "measure { fraction { numerator: 'one' denominator: 'two' } units: 'kilograms' }",
         0%Z)].
Proof.
  split; [|vm_compute; reflexivity].
  intros fraction data s o w. unfold subgraph_fraction. rewrite maps_insert_then.
  split.
  - intros (o1 & H & ->).
    apply maps_concat in H as (q & r & body & o2 & w1 & w2 & -> & Hf & H & -> & ->).
    apply space_then_elim in H as (ws & u & -> & Hb & H).
    apply maps_insert_then in H as (x & H & ->).
    exists q, ws, u, body, x, w1, w2. auto 10.
  - intros (q & ws & u & body & x & w1 & w2 & -> & Hb & Hf & HU & -> & ->).
    eexists. split; [|reflexivity].
    apply maps_concat_intro; [assumption|].
    apply space_then_intro; [assumption|]. now apply insert_then_intro.
Qed.

(** ** The empty input *)

Lemma nonempty_concat_l A B : reads_nonempty A -> reads_nonempty (A :+: B).
Proof.
  intros HA s o w H.
  apply maps_concat in H as (s1 & s2 & o1 & o2 & w1 & w2 & -> & H1 & _).
  apply HA in H1. destruct s1; [congruence|discriminate].
Qed.

Lemma nonempty_concat_r A B : reads_nonempty B -> reads_nonempty (A :+: B).
Proof.
  intros HB s o w H.
  apply maps_concat in H as (s1 & s2 & o1 & o2 & w1 & w2 & -> & _ & H2 & _).
  apply HB in H2. intros E. apply app_eq_nil in E as [_ E]. contradiction.
Qed.

Lemma nonempty_union A B :
  reads_nonempty A -> reads_nonempty B -> reads_nonempty (A :|: B).
Proof. intros HA HB s o w H. apply maps_union in H as [H|H]; eauto. Qed.

Lemma nonempty_accep x : x <> [] -> reads_nonempty (accep x).
Proof. intros Hx s o w H. apply maps_accep in H as (-> & _). exact Hx. Qed.

Lemma nonempty_cross A y : reads_nonempty A -> reads_nonempty (cross A y).
Proof. intros HA s o w H. apply maps_cross in H as (_ & o' & H). eauto. Qed.

Lemma nonempty_compose A B : reads_nonempty A -> reads_nonempty (A :@: B).
Proof.
  intros HA s o w H. apply maps_compose in H as (m & w1 & w2 & H & _). eauto.
Qed.

Lemma nonempty_alpha_plus : reads_nonempty (closure NEMO_ALPHA 1 None).
Proof. intros s o w H. now apply maps_alpha_plus in H. Qed.

Section NonEmpty.

Variable cardinal : CardinalFst.
Variable decimal : DecimalFst.
Variable fraction : FractionFst.
Variable deterministic : bool.
Variable lm : bool.
Variable data : Resources.
Hypothesis no_empty_key : forall v, ~ In ([], v) (measurements_tsv data).

Lemma nonempty_graph_unit_any_case : reads_nonempty (graph_unit_any_case data).
Proof.
  intros s o w H. unfold graph_unit_any_case in H. apply maps_union in H as [H|H].
  - apply maps_string_map in H as [H _]. intros ->. exact (no_empty_key _ H).
  - apply maps_case_folded in H as (u & v & -> & Hne & _).
    destruct u; [congruence|discriminate].
Qed.

Lemma nonempty_graph_unit : reads_nonempty (graph_unit data).
Proof. apply nonempty_compose, nonempty_graph_unit_any_case. Qed.

Lemma nonempty_graph_unit_plural : reads_nonempty (graph_unit_plural data).
Proof.
  intros s o w H. apply maps_graph_unit_plural in H
    as [(c & p & w1 & w2 & H & _)|[[H _]|[H _]]];
    eapply nonempty_graph_unit_any_case, H.
Qed.

Lemma nonempty_graph_unit2 : reads_nonempty (graph_unit2 data).
Proof.
  unfold graph_unit2. apply nonempty_concat_l, nonempty_cross, nonempty_accep.
  discriminate.
Qed.

Lemma nonempty_unit_plural : reads_nonempty (unit_plural data).
Proof.
  unfold unit_plural. apply nonempty_concat_r, nonempty_concat_l, nonempty_union.
  - apply nonempty_concat_l, nonempty_graph_unit_plural.
  - exact nonempty_graph_unit2.
Qed.

Lemma nonempty_unit_singular : reads_nonempty (unit_singular data).
Proof.
  unfold unit_singular. apply nonempty_concat_r, nonempty_concat_l, nonempty_union.
  - apply nonempty_concat_l, nonempty_graph_unit.
  - exact nonempty_graph_unit2.
Qed.

Lemma nonempty_get_address_graph : reads_nonempty (get_address_graph cardinal lm data).
Proof.
  assert (K : forall T, reads_nonempty
                (address_num cardinal :+: direction :+: address_words cardinal data :+: T)).
  { intros T. do 2 apply nonempty_concat_r. apply nonempty_concat_l.
    unfold address_words. apply nonempty_concat_l, nonempty_accep. discriminate. }
  unfold get_address_graph. destruct lm; [apply nonempty_union|]; apply K.
Qed.

Lemma nonempty_final_graph :
  reads_nonempty (final_graph cardinal decimal fraction deterministic lm data).
Proof.
  unfold final_graph. repeat apply nonempty_union.
  - unfold subgraph_decimal. do 5 apply nonempty_concat_r.
    exact nonempty_unit_plural.
  - unfold subgraph_cardinal_plural. do 7 apply nonempty_concat_r.
    exact nonempty_unit_plural.
  - unfold subgraph_cardinal_singular. do 7 apply nonempty_concat_r.
    exact nonempty_unit_singular.
  - unfold unit_graph. apply nonempty_concat_r, nonempty_concat_l, nonempty_cross.
    apply nonempty_union; apply nonempty_accep; discriminate.
  - unfold cardinal_dash_alpha. do 2 apply nonempty_concat_r.
    apply nonempty_concat_l, nonempty_accep. discriminate.
  - unfold alpha_dash_cardinal. apply nonempty_concat_r, nonempty_concat_l.
    exact nonempty_alpha_plus.
  - unfold decimal_dash_alpha. do 2 apply nonempty_concat_r.
    apply nonempty_concat_l, nonempty_cross, nonempty_accep. discriminate.
  - unfold decimal_times. do 3 apply nonempty_concat_r.
    apply nonempty_concat_l, nonempty_cross.
    apply nonempty_union; apply nonempty_accep; discriminate.
  - unfold alpha_dash_decimal. apply nonempty_concat_r, nonempty_concat_l.
    exact nonempty_alpha_plus.
  - unfold subgraph_fraction. do 4 apply nonempty_concat_r.
    exact nonempty_unit_plural.
  - unfold address. apply nonempty_concat_r, nonempty_concat_l.
    exact nonempty_get_address_graph.
  - unfold math, math_equation. apply nonempty_concat_r, nonempty_concat_l.
    do 6 apply nonempty_concat_r. apply nonempty_concat_l, nonempty_cross.
    apply nonempty_accep. discriminate.
Qed.

End NonEmpty.

(** X7.  When no row of the unit table has an empty key, no branch of the
    alternation has a path that reads nothing: the finished transducer
    rejects the empty input, whatever the injected grammars are; and a
    unit part is never empty, so a quantity alone is no measure for the
    decimal, cardinal and fraction branches. *)
Theorem empty_input_rejected :
  forall cardinal decimal fraction deterministic lm data,
    (forall v, ~ In ([], v) (measurements_tsv data)) ->
    ~ accepts (measure_fst cardinal decimal fraction deterministic lm data) []
    /\ (forall u x w, maps (unit_plural data) u x w -> u <> [])
    /\ (forall u x w, maps (unit_singular data) u x w -> u <> []).
Proof.
  intros cardinal decimal fraction deterministic lm data Hkey.
  split; [|split].
  - intros (o & w & H). apply maps_measure_fst in H as (body & H & _).
    now apply (nonempty_final_graph cardinal decimal fraction deterministic lm
                 data Hkey) in H.
  - exact (nonempty_unit_plural data Hkey).
  - exact (nonempty_unit_singular data Hkey).
Qed.

Lemma sample_no_empty_key : forall v, ~ In ([], v) (measurements_tsv Sample.data).
Proof.
  intros v H. simpl in H.
  repeat (destruct H as [H|H]; [discriminate H|]). exact H.
Qed.

Lemma empty_input_rejected_witness :
  ~ accepts Sample.tagger []
  /\ (forall u x w, maps (unit_plural Sample.data) u x w -> u <> [])
  /\ (forall u x w, maps (unit_singular Sample.data) u x w -> u <> []).
Proof.
  exact (empty_input_rejected Sample.cardinal Sample.decimal Sample.fraction
           true false Sample.data sample_no_empty_key).
Defined.

(** ** The two flags *)

Lemma sub_refl A : sub A A.
Proof. intros s o w H. exact H. Qed.

Lemma sub_union A A' B B' : sub A A' -> sub B B' -> sub (A :|: B) (A' :|: B').
Proof.
  intros HA HB s o w H. apply maps_union in H as [H|H]; apply maps_union; auto.
Qed.

Lemma sub_union_l A B : sub A (A :|: B).
Proof. intros s o w H. apply maps_union. now left. Qed.

Lemma sub_concat A A' B B' : sub A A' -> sub B B' -> sub (A :+: B) (A' :+: B').
Proof.
  intros HA HB s o w H.
  apply maps_concat in H as (s1 & s2 & o1 & o2 & w1 & w2 & -> & H1 & H2 & -> & ->).
  apply maps_concat_intro; auto.
Qed.

Lemma sub_compose A A' B B' : sub A A' -> sub B B' -> sub (A :@: B) (A' :@: B').
Proof.
  intros HA HB s o w H. apply maps_compose in H as (m & w1 & w2 & H1 & H2 & ->).
  apply maps_compose. exists m, w1, w2. auto.
Qed.

Lemma sub_cardinal_graph cardinal :
  sub (cardinal_graph cardinal true) (cardinal_graph cardinal false).
Proof. unfold cardinal_graph. apply sub_union_l. Qed.

Lemma sub_get_address_graph cardinal data :
  sub (get_address_graph cardinal false data) (get_address_graph cardinal true data).
Proof. unfold get_address_graph. apply sub_union_l. Qed.

Ltac sub_tac :=
  repeat match goal with
    | |- sub ?A ?B => constr_eq A B; exact (sub_refl A)
    | |- sub (cardinal_graph _ true) (cardinal_graph _ false) =>
        apply sub_cardinal_graph
    | |- sub (get_address_graph _ false _) (get_address_graph _ true _) =>
        apply sub_get_address_graph
    | |- sub (_ :+: _) (_ :+: _) => apply sub_concat
    | |- sub (_ :|: _) (_ :|: _) => apply sub_union
    | |- sub (_ :@: _) (_ :@: _) => apply sub_compose
    end.

Lemma sub_final_graph_deterministic cardinal decimal fraction lm data :
  sub (final_graph cardinal decimal fraction true lm data)
      (final_graph cardinal decimal fraction false lm data).
Proof.
  unfold final_graph, subgraph_cardinal, subgraph_cardinal_plural,
    cardinal_dash_alpha, alpha_dash_cardinal, math, math_equation.
  sub_tac.
Qed.

Lemma sub_final_graph_lm cardinal decimal fraction deterministic data :
  sub (final_graph cardinal decimal fraction deterministic false data)
      (final_graph cardinal decimal fraction deterministic true data).
Proof. unfold final_graph, address. sub_tac. Qed.

(** X8.  The two flags of the constructor only add paths to the
    alternation of lines 220-232, the graph before the token wrapper and
    the final optimization.  Every path of the alternation built with
    [deterministic=True] is a path, with the same output and cost, of the
    one built with [deterministic=False], where the range graph is folded
    into the cardinal graph (lines 62-65); and every path built with
    [lm=False] is a path of the one built with [lm=True], where the
    address graph gets its looser alternative (lines 305-306). *)
Theorem flags_only_add_paths :
  forall cardinal decimal fraction data,
    (forall lm s o w,
       maps (final_graph cardinal decimal fraction true lm data) s o w ->
       maps (final_graph cardinal decimal fraction false lm data) s o w)
    /\ (forall deterministic s o w,
          maps (final_graph cardinal decimal fraction deterministic false data) s o w ->
          maps (final_graph cardinal decimal fraction deterministic true data) s o w).
Proof.
  intros cardinal decimal fraction data. split.
  - intros lm s o w H. now apply sub_final_graph_deterministic.
  - intros deterministic s o w H. now apply sub_final_graph_lm.
Qed.

(** ** Ordinary spaces in the units strings *)

Lemma no_space_graph_unit data u o w :
  maps (graph_unit data) u o w -> ~ In " "%char o.
Proof.
  intros H. apply maps_convert_space in H as (m & _ & ->).
  apply nbsp_of_space_no_space.
Qed.

Lemma no_space_graph_unit2 data u o w :
  maps (graph_unit2 data) u o w -> ~ In " "%char o.
Proof.
  intros H. apply maps_graph_unit2 in H as (ws & r & x & _ & _ & H & ->).
  apply no_space_graph_unit in H. rewrite !in_app_iff. intros [K|[K|K]].
  - simpl in K. repeat (destruct K as [K|K]; [discriminate K|]). exact K.
  - simpl in K. repeat (destruct K as [K|K]; [discriminate K|]). exact K.
  - now apply H.
Qed.

Lemma no_space_optional_graph_unit2 data u o w :
  maps (optional_graph_unit2 data) u o w -> ~ In " "%char o.
Proof.
  unfold optional_graph_unit2. intros H.
  apply maps_optional in H as [(_ & -> & _)|H]; [intros []|].
  apply space_then_elim in H as (ws & r & _ & _ & H).
  apply maps_insert_then in H as (x & H & ->).
  apply no_space_graph_unit2 in H. rewrite in_app_iff. intros [K|K].
  - simpl in K. repeat (destruct K as [K|K]; [discriminate K|]). exact K.
  - now apply H.
Qed.

(** X9.  The space conversion of line 84 covers the singular unit graph,
    and the per-unit parts insert the non-breaking separator, so the
    units string of [unit_singular] holds no ordinary space.  In
    [unit_plural] the two degree plurals are united after the space
    conversion of line 74 (lines 75-82): they are the only plural unit
    strings that keep an ordinary space. *)
Theorem units_ordinary_space :
  (forall data u o w,
     maps (unit_singular data) u o w ->
     exists x, o = qstr "units: '" ++ x ++ qstr "'" /\ ~ In " "%char x)
  /\ (forall data u o w,
        maps (unit_plural data) u o w ->
        exists p r,
          o = qstr "units: '" ++ (p ++ r) ++ qstr "'" /\
          ~ In " "%char r /\
          (In " "%char p ->
           p = str "degrees Celsius" \/ p = str "degrees Fahrenheit"))
  /\ graph_unit Sample.data (str "sq ft")
     = [(str "square" ++ NEMO_NON_BREAKING_SPACE ++ str "foot", 0%Z)]
  /\ graph_unit_plural Sample.data (str "C") = [(str "degrees Celsius", 0%Z)].
Proof.
  split; [|split; [|split; vm_compute; reflexivity]].
  - intros data u o w H. unfold unit_singular in H.
    apply maps_insert_then in H as (o1 & H & ->).
    apply maps_then_insert in H as (x & H & ->).
    exists x. split; [reflexivity|]. apply maps_union in H as [H|H].
    + apply maps_concat in H as (s1 & s2 & o1 & o2 & w1 & w2 & _ & H1 & H2 & -> & _).
      apply no_space_graph_unit in H1. apply no_space_optional_graph_unit2 in H2.
      rewrite in_app_iff. tauto.
    + exact (no_space_graph_unit2 _ _ _ _ H).
  - intros data u o w H. unfold unit_plural in H.
    apply maps_insert_then in H as (o1 & H & ->).
    apply maps_then_insert in H as (x & H & ->).
    apply maps_union in H as [H|H].
    + apply maps_concat in H as (s1 & s2 & p & r & w1 & w2 & _ & H1 & H2 & -> & _).
      exists p, r. split; [reflexivity|].
      split; [exact (no_space_optional_graph_unit2 _ _ _ _ H2)|].
      intros K. apply maps_graph_unit_plural in H1
        as [(c & q & v1 & v2 & _ & _ & _ & _ & -> & _)|[[_ ->]|[_ ->]]]; auto.
      now apply nbsp_of_space_no_space in K.
    + exists [], x. split; [reflexivity|].
      split; [exact (no_space_graph_unit2 _ _ _ _ H)|]. intros [].
Qed.

(** ** The parts of an address *)

Lemma maps_direction_word r o w :
  maps direction_word r o w <->
  exists l word dot,
    In (l, word) compass /\ (dot = [] \/ dot = str ".") /\
    r = l ++ dot /\ o = word /\ w = 0%Z.
Proof.
  unfold direction_word. rewrite maps_concat. split.
  - intros (l & dot & word & o2 & w1 & w2 & -> & H1 & H2 & -> & ->).
    assert (K : In (l, word) compass /\ w1 = 0%Z).
    { unfold compass.
      repeat (apply maps_union in H1 as [H1|H1]);
        apply maps_cross in H1 as (-> & x & H1);
        apply maps_accep in H1 as (-> & _ & ->); simpl; auto 10. }
    destruct K as [K ->].
    apply maps_optional in H2 as [(-> & -> & ->)|H2].
    + exists l, word, []. rewrite !app_nil_r. auto.
    + apply maps_delete in H2 as (-> & x & H2).
      apply maps_accep in H2 as (-> & _ & ->).
      exists l, word, (str "."). rewrite app_nil_r. auto 10.
  - intros (l & word & dot & Hc & Hd & -> & -> & ->).
    exists l, dot, word, [], 0%Z, 0%Z. rewrite app_nil_r.
    repeat split.
    + unfold compass in Hc. simpl in Hc.
      destruct Hc as [E|[E|[E|[E|[]]]]]; inversion E; subst;
        repeat rewrite maps_union;
        [left|right; left|right; right; left|right; right; right];
        (apply maps_cross; split; [reflexivity|]; eexists; now apply maps_accep).
    + apply maps_optional. destruct Hd as [-> | ->]; [now left|right].
      apply maps_delete. split; [reflexivity|]. exists (str ".").
      now apply maps_accep.
Qed.

(** X10.  The compass direction of an address (lines 261-268) is
    optional.  When present it is one space, one of the uppercase letters
    E, S, W, N and an optional period: the space is kept, the letter is
    written as its full word, the period is deleted, and the path carries
    the bias [-1].  Lowercase letters are not read. *)
Theorem direction_expands :
  (forall s o w,
     maps direction s o w <->
     (s = [] /\ o = [] /\ w = 0%Z)
     \/ exists l word dot,
          In (l, word) compass /\ (dot = [] \/ dot = str ".") /\
          s = str " " ++ l ++ dot /\ o = str " " ++ word /\ w = (-1000)%Z)
  /\ direction (str " N.") = [(str " North", (-1000)%Z)]
  /\ direction (str " n") = [].
Proof.
  split; [|split; vm_compute; reflexivity].
  intros s o w. unfold direction. rewrite maps_optional.
  apply or_iff_compat_l. rewrite maps_add_weight. unfold NEMO_SPACE.
  rewrite maps_accep_then. split.
  - intros (r & o' & -> & H & ->).
    apply maps_direction_word in H as (l & word & dot & Hc & Hd & -> & -> & E).
    exists l, word, dot. repeat split; try assumption. lia.
  - intros (l & word & dot & Hc & Hd & -> & -> & ->).
    exists (l ++ dot), word. repeat split.
    apply maps_direction_word. exists l, word, dot. auto 10.
Qed.

Lemma maps_alpha_or_space s o w :
  maps (NEMO_ALPHA :|: accep NEMO_SPACE) s o w <->
  exists c, s = [c] /\ is_alpha_or_space c = true /\ o = [(fun x => x) c] /\ w = 0%Z.
Proof.
  rewrite maps_union, maps_NEMO_ALPHA, maps_accep. unfold is_alpha_or_space.
  split.
  - intros [(c & -> & H & -> & ->)|(-> & -> & ->)].
    + exists c. rewrite H. auto.
    + exists " "%char. auto.
  - intros (c & -> & H & -> & ->). apply orb_prop in H as [H|H].
    + left. now exists c.
    + right. apply Ascii.eqb_eq in H. subst c. auto.
Qed.

Lemma in_invert_states data abbr x :
  In (abbr, x) (invert_map (states data)) <->
  exists y0 yr,
    In (x, (y0, yr)) (states_tsv data) /\
    (abbr = y0 :: yr \/ abbr = y0 :: str "." ++ yr).
Proof.
  unfold invert_map, states, additional_options.
  rewrite in_map_iff. split.
  - intros ([x' a'] & E & H). simpl in E. inversion E; subst.
    apply in_app_iff in H as [H|H];
      apply in_map_iff in H as ([x0 [y0 yr]] & E' & H); simpl in E';
      inversion E'; subst; exists y0, yr; auto.
  - intros (y0 & yr & H & [-> | ->]).
    + exists (x, y0 :: yr). split; [reflexivity|]. apply in_app_iff. left.
      apply in_map_iff. now exists (x, (y0, yr)).
    + exists (x, y0 :: str "." ++ yr). split; [reflexivity|]. apply in_app_iff.
      right. apply in_map_iff. now exists (x, (y0, yr)).
Qed.

(** X11.  The city and the state of an address (lines 278-289) are
    optional.  A city is a comma, a space and a non-empty run of ASCII
    letters and spaces, copied to the output with its comma.  A state is a
    comma, a space and the abbreviation of a row of the states table, or
    the abbreviation with a period after its first character (line 285);
    it is written as the comma, the space and the name of the row. *)
Theorem city_and_state :
  (forall s o w,
     maps city s o w <->
     (s = [] /\ o = [] /\ w = 0%Z)
     \/ exists n,
          n <> [] /\ forallb is_alpha_or_space n = true /\
          s = str ", " ++ n /\ o = str ", " ++ n /\ w = 0%Z)
  /\ (forall data s o w,
        maps (state data) s o w <->
        (s = [] /\ o = [] /\ w = 0%Z)
        \/ exists x y0 yr abbr,
             In (x, (y0, yr)) (states_tsv data) /\
             (abbr = y0 :: yr \/ abbr = y0 :: str "." ++ yr) /\
             s = str ", " ++ abbr /\ o = str ", " ++ x /\ w = 0%Z)
  /\ state Sample.data (str ", CA") = [(str ", California", 0%Z)]
  /\ state Sample.data (str ", C.A") = [(str ", California", 0%Z)].
Proof.
  split; [|split; [|split; vm_compute; reflexivity]].
  - intros s o w. unfold city. rewrite maps_optional. apply or_iff_compat_l.
    unfold NEMO_SPACE. rewrite maps_accep_then. split.
    + intros (r & o' & -> & H & ->).
      apply maps_accep_then in H as (n & o2 & -> & H & ->).
      apply (maps_plus_sym _ is_alpha_or_space (fun x => x) maps_alpha_or_space)
        in H as (Hne & Hal & -> & ->).
      rewrite map_id. exists n. auto.
    + intros (n & Hne & Hal & -> & -> & ->).
      exists (str " " ++ n), (str " " ++ n). repeat split.
      apply maps_accep_then. exists n, n. repeat split.
      apply (maps_plus_sym _ is_alpha_or_space (fun x => x) maps_alpha_or_space).
      rewrite map_id. auto.
  - intros data s o w. unfold state. rewrite maps_optional. apply or_iff_compat_l.
    unfold NEMO_SPACE. rewrite maps_accep_then. split.
    + intros (r & o' & -> & H & ->).
      apply maps_accep_then in H as (abbr & x & -> & H & ->).
      apply maps_string_map in H as [H ->].
      apply in_invert_states in H as (y0 & yr & H & Ha).
      exists x, y0, yr, abbr. auto 10.
    + intros (x & y0 & yr & abbr & H & Ha & -> & -> & ->).
      exists (str " " ++ abbr), (str " " ++ x). repeat split.
      apply maps_accep_then. exists abbr, x. repeat split.
      apply maps_string_map. split; [|reflexivity].
      apply in_invert_states. now exists y0, yr.
Qed.

(** X12.  The zip code of an address (lines 291-296) is optional.  When
    present it is an optional comma, one space and exactly five decimal
    digits, spelled by the single-digit graph of the cardinal grammar; the
    comma and the space are kept, and the path carries the bias [-100]. *)
Theorem zip_code_five_digits :
  (forall cardinal s o w,
     maps (zip_code cardinal) s o w <->
     (s = [] /\ o = [] /\ w = 0%Z)
     \/ exists comma d o' w',
          (comma = [] \/ comma = str ",") /\
          List.length d = 5%nat /\ forallb is_digit d = true /\
          maps (single_digits_graph cardinal) d o' w' /\
          s = comma ++ str " " ++ d /\ o = comma ++ str " " ++ o' /\
          w = (w' - 100000)%Z)
  /\ zip_code Sample.cardinal (str " 95051")
     = [(str " nine five zero five one", (-100000)%Z)]
  /\ zip_code Sample.cardinal (str " 9505") = []
  /\ zip_code Sample.cardinal (str " 950511") = [].
Proof.
  split; [|split; [|split]; vm_compute; reflexivity].
  intros cardinal s o w. unfold zip_code. rewrite maps_optional.
  apply or_iff_compat_l. rewrite maps_add_weight, maps_concat. split.
  - intros (comma & r & oc & o2 & w1 & w2 & -> & Hc & H & -> & E).
    unfold NEMO_SPACE in H. apply maps_accep_then in H as (d & o3 & -> & H & ->).
    apply maps_compose in H as (m & v1 & v2 & Hd & Hs & ->).
    apply (maps_power_sym NEMO_DIGIT is_digit (fun c => c) maps_NEMO_DIGIT)
      in Hd as (L & D & -> & ->).
    rewrite map_id in Hs.
    apply maps_optional in Hc as [(-> & -> & ->)|Hc].
    + exists [], d, o3, v2. repeat split; auto. lia.
    + apply maps_accep in Hc as (-> & -> & ->).
      exists (str ","), d, o3, v2. repeat split; auto. lia.
  - intros (comma & d & o' & w' & Hc & L & D & Hs & -> & -> & ->).
    exists comma, (str " " ++ d), comma, (str " " ++ o'), 0%Z, w'.
    repeat split; [| |lia].
    + apply maps_optional. destruct Hc as [-> | ->]; [now left|right].
      now apply maps_accep.
    + unfold NEMO_SPACE. apply maps_accep_then. exists d, o'. repeat split.
      apply maps_compose. exists d, 0%Z, w'. repeat split; [|assumption].
      apply (maps_power_sym NEMO_DIGIT is_digit (fun c => c) maps_NEMO_DIGIT).
      rewrite map_id. auto.
Qed.

(** ** The whole relation of the math-equation branch *)

Lemma maps_operand (C : wfst) x x' w :
  maps (C :|: NEMO_ALPHA) x x' w <-> operand C x x' w.
Proof.
  unfold operand. rewrite maps_union, maps_NEMO_ALPHA. reflexivity.
Qed.

Lemma maps_after_operator m m' w :
  maps (delimiter :|: NEMO_ALPHA) m m' w <-> after_operator m m' /\ w = 0%Z.
Proof.
  unfold after_operator. rewrite maps_union, maps_delimiter, maps_NEMO_ALPHA.
  split.
  - intros [(Hd & -> & ->)|(l & -> & Hl & -> & ->)]; split; auto.
    right. now exists l.
  - intros [[[Hd ->]|(l & -> & Hl & ->)] ->]; [left; auto|right].
    now exists l.
Qed.

(** X13.  The math-equation branch (lines 204-219) reads nine pieces in a
    row and nothing else: an outer operand, a delimiter, an operator of
    the table, a delimiter or one letter, a middle operand, a delimiter,
    the sign [=], a delimiter and an outer operand.  An outer operand is
    read by the cardinal graph or is one ASCII letter, copied; the middle
    operand is read by the cardinal graph only.  A delimiter is one space
    or nothing and is written as one space; a letter after the operator
    is copied with no space around it.  The cost is the cost of the
    operands. *)
Theorem math_branch_relation :
  (forall cardinal deterministic data s o w,
     maps (math cardinal deterministic data) s o w <->
     exists a d1 op m b d3 d4 c a' op' m' b' c' wa wb wc,
       s = a ++ d1 ++ op ++ m ++ b ++ d3 ++ str "=" ++ d4 ++ c /\
       operand (cardinal_graph cardinal deterministic) a a' wa /\
       (d1 = [] \/ d1 = str " ") /\
       In (op, op') (math_operations_tsv data) /\
       after_operator m m' /\
       maps (cardinal_graph cardinal deterministic) b b' wb /\
       (d3 = [] \/ d3 = str " ") /\
       (d4 = [] \/ d4 = str " ") /\
       operand (cardinal_graph cardinal deterministic) c c' wc /\
       o = qstr "units: 'math' cardinal { integer: '"
           ++ (a' ++ str " " ++ op' ++ m' ++ b' ++ str " " ++ str "equals"
               ++ str " " ++ c')
           ++ qstr "' } preserve_order: true" /\
       w = (wa + wb + wc)%Z)
  /\ Sample.tagger (str "a*2 =b")
     = [(qstr "measure { units: 'math' cardinal { integer: 'a times two equals b' } preserve_order: true }",
         0%Z)]
  /\ Sample.tagger (str "2+a=4") = [].
Proof.
  split; [|split; vm_compute; reflexivity].
  intros cardinal deterministic data s o w. unfold math.
  rewrite maps_insert_then. split.
  - intros (o1 & H & ->). apply maps_then_insert in H as (e & H & ->).
    unfold math_equation, math_operations in H.
    apply maps_concat in H as (a & r1 & a' & o2 & wa & v1 & -> & Ha & H & -> & ->).
    apply maps_operand in Ha.
    apply maps_concat in H as (d1 & r2 & x1 & o3 & u1 & v2 & -> & H1 & H & -> & ->).
    apply maps_delimiter in H1 as (Hd1 & -> & ->).
    apply maps_concat in H as (op & r3 & op' & o4 & u2 & v3 & -> & Hop & H & -> & ->).
    apply maps_string_map in Hop as [Hop ->].
    apply maps_concat in H as (m & r4 & m' & o5 & u3 & v4 & -> & Hm & H & -> & ->).
    apply maps_after_operator in Hm as [Hm ->].
    apply maps_concat in H as (b & r5 & b' & o6 & wb & v5 & -> & Hb & H & -> & ->).
    apply maps_concat in H as (d3 & r6 & x3 & o7 & u4 & v6 & -> & H3 & H & -> & ->).
    apply maps_delimiter in H3 as (Hd3 & -> & ->).
    apply maps_concat in H as (e1 & r7 & x4 & o8 & u5 & v7 & -> & He & H & -> & ->).
    apply maps_cross in He as (-> & y & He).
    apply maps_accep in He as (-> & _ & ->).
    apply maps_concat in H as (d4 & c & x5 & c' & u6 & wc & -> & H4 & Hc & -> & ->).
    apply maps_delimiter in H4 as (Hd4 & -> & ->).
    apply maps_operand in Hc.
    exists a, d1, op, m, b, d3, d4, c, a', op', m', b', c', wa, wb, wc.
    repeat split; try assumption. lia.
  - intros (a & d1 & op & m & b & d3 & d4 & c & a' & op' & m' & b' & c'
            & wa & wb & wc
            & -> & Ha & Hd1 & Hop & Hm & Hb & Hd3 & Hd4 & Hc & -> & ->).
    eexists. split; [|reflexivity]. apply maps_then_insert_iff.
    eexists. split; [|reflexivity]. unfold math_equation, math_operations.
    replace (wa + wb + wc)%Z
      with (wa + (0 + (0 + (0 + (wb + (0 + (0 + (0 + wc))))))))%Z by lia.
    apply maps_concat_intro; [now apply maps_operand|].
    apply maps_concat_intro; [now apply maps_delimiter|].
    apply maps_concat_intro; [now apply maps_string_map|].
    apply maps_concat_intro; [now apply maps_after_operator|].
    apply maps_concat_intro; [assumption|].
    apply maps_concat_intro; [now apply maps_delimiter|].
    apply maps_concat_intro.
    { apply maps_cross. split; [reflexivity|]. exists (str "=").
      now apply maps_accep. }
    apply maps_concat_intro; [now apply maps_delimiter|].
    now apply maps_operand.
Qed.

(** ** Where the biases are *)

Lemma unweighted_accep x : unweighted (accep x).
Proof. intros s o w H. now apply maps_accep in H. Qed.

Lemma unweighted_cross A y : unweighted A -> unweighted (cross A y).
Proof. intros HA s o w H. apply maps_cross in H as (_ & o' & H). eauto. Qed.

Lemma unweighted_insert y : unweighted (insert y).
Proof. apply unweighted_cross, unweighted_accep. Qed.

Lemma unweighted_delete A : unweighted A -> unweighted (delete A).
Proof. apply unweighted_cross. Qed.

Lemma unweighted_union A B : unweighted A -> unweighted B -> unweighted (A :|: B).
Proof. intros HA HB s o w H. apply maps_union in H as [H|H]; eauto. Qed.

Lemma unweighted_concat A B : unweighted A -> unweighted B -> unweighted (A :+: B).
Proof.
  intros HA HB s o w H.
  apply maps_concat in H as (s1 & s2 & o1 & o2 & w1 & w2 & _ & H1 & H2 & _ & ->).
  apply HA in H1. apply HB in H2. lia.
Qed.

Lemma unweighted_compose A B : unweighted A -> unweighted B -> unweighted (A :@: B).
Proof.
  intros HA HB s o w H. apply maps_compose in H as (m & w1 & w2 & H1 & H2 & ->).
  apply HA in H1. apply HB in H2. lia.
Qed.

Lemma unweighted_power A n : unweighted A -> unweighted (power A n).
Proof.
  intros HA. induction n as [|n IH]; simpl.
  - apply unweighted_accep.
  - now apply unweighted_concat.
Qed.

Lemma unweighted_upto A n : unweighted A -> unweighted (upto A n).
Proof.
  intros HA. induction n as [|n IH]; simpl.
  - apply unweighted_accep.
  - apply unweighted_union; [apply unweighted_accep|].
    now apply unweighted_concat.
Qed.

Lemma unweighted_star A : unweighted A -> unweighted (star A).
Proof.
  intros HA s o w H. apply maps_star in H. exact (star_rel_zero HA H).
Qed.

Lemma unweighted_closure A lo hi : unweighted A -> unweighted (closure A lo hi).
Proof.
  intros HA. unfold closure. destruct hi; apply unweighted_concat;
    auto using unweighted_power, unweighted_upto, unweighted_star.
Qed.

Lemma unweighted_sym p : unweighted (sym p).
Proof. intros s o w H. apply maps_sym in H as (c & _ & _ & _ & ->). reflexivity. Qed.

Lemma unweighted_TO_LOWER : unweighted TO_LOWER.
Proof.
  intros s o w H. apply maps_TO_LOWER in H as (c & _ & _ & _ & ->). reflexivity.
Qed.

Lemma unweighted_sigma : unweighted NEMO_SIGMA.
Proof. intros s o w H. now apply maps_sigma in H. Qed.

Lemma unweighted_difference A B : unweighted A -> unweighted (difference A B).
Proof. intros HA s o w H. apply maps_difference in H as [H _]. eauto. Qed.

Lemma unweighted_priority_union A B :
  unweighted A -> unweighted B -> unweighted (priority_union A B).
Proof.
  intros HA HB s o w H. apply maps_priority_union in H as [H|[_ H]]; eauto.
Qed.

Lemma unweighted_union_accep l : unweighted (union_accep l).
Proof.
  induction l as [|x l IH]; simpl.
  - intros s o w [].
  - apply unweighted_union; [apply unweighted_accep|exact IH].
Qed.

Lemma unweighted_convert_space A : unweighted A -> unweighted (convert_space A).
Proof.
  intros HA s o w H. apply maps_convert_space in H as (m & H & _). eauto.
Qed.

Ltac unweighted_tac :=
  repeat match goal with
    | |- unweighted (_ :+: _) => apply unweighted_concat
    | |- unweighted (_ :|: _) => apply unweighted_union
    | |- unweighted (_ :@: _) => apply unweighted_compose
    | |- unweighted (insert _) => apply unweighted_insert
    | |- unweighted (accep _) => apply unweighted_accep
    | |- unweighted (cross _ _) => apply unweighted_cross
    | |- unweighted (delete _) => apply unweighted_delete
    | |- unweighted (closure _ _ _) => apply unweighted_closure
    | |- unweighted (power _ _) => apply unweighted_power
    | |- unweighted (star _) => apply unweighted_star
    | |- unweighted (optimize _) => unfold optimize
    | |- unweighted (convert_space _) => apply unweighted_convert_space
    | |- unweighted (difference _ _) => apply unweighted_difference
    | |- unweighted (priority_union _ _) => apply unweighted_priority_union
    | |- unweighted (string_map _) => apply string_map_unweighted
    | |- unweighted (union_accep _) => apply unweighted_union_accep
    | |- unweighted (sym _) => apply unweighted_sym
    | |- unweighted TO_LOWER => exact unweighted_TO_LOWER
    | |- unweighted NEMO_SIGMA => exact unweighted_sigma
    end.

Lemma unweighted_unit_plural data : unweighted (unit_plural data).
Proof.
  unfold unit_plural, graph_unit_plural, optional_graph_unit2, graph_unit2,
    graph_unit, graph_unit_no_degrees, graph_unit_any_case,
    graph_unit_case_folded, graph_unit_file, SINGULAR_TO_PLURAL, plural_ies,
    plural_es, plural_s, delete_space, NEMO_WHITE_SPACE, NEMO_ALPHA, NEMO_LOWER,
    NEMO_UPPER.
  unweighted_tac.
Qed.

Lemma unweighted_unit_singular data : unweighted (unit_singular data).
Proof.
  unfold unit_singular, optional_graph_unit2, graph_unit2,
    graph_unit, graph_unit_any_case,
    graph_unit_case_folded, graph_unit_file, delete_space, NEMO_WHITE_SPACE,
    NEMO_ALPHA, NEMO_LOWER, NEMO_UPPER.
  unweighted_tac.
Qed.

Lemma unweighted_graph_unit data : unweighted (graph_unit data).
Proof.
  unfold graph_unit, graph_unit_any_case,
    graph_unit_case_folded, graph_unit_file, NEMO_ALPHA, NEMO_LOWER, NEMO_UPPER.
  unweighted_tac.
Qed.

Ltac cut_union H :=
  match type of H with
  | maps (_ :|: _) _ _ _ => apply maps_union in H; destruct H as [H|H]
  end.

Section GrammarCosts.

Variable cardinal : CardinalFst.
Variable decimal : DecimalFst.
Variable fraction : FractionFst.
Variable deterministic : bool.
Variable lm : bool.
Variable data : Resources.

Let G : weight -> Prop := grammar_cost cardinal decimal fraction deterministic.

Lemma gc_unweighted T : unweighted T -> costs G T.
Proof. intros U s o w H. apply U in H. subst w. apply gc_zero. Qed.

Lemma gc_concat A B : costs G A -> costs G B -> costs G (A :+: B).
Proof.
  intros HA HB s o w H.
  apply maps_concat in H as (s1 & s2 & o1 & o2 & w1 & w2 & _ & H1 & H2 & _ & ->).
  apply gc_add; [exact (HA _ _ _ H1)|exact (HB _ _ _ H2)].
Qed.

Lemma gc_union A B : costs G A -> costs G B -> costs G (A :|: B).
Proof.
  intros HA HB s o w H.
  apply maps_union in H as [H|H]; [exact (HA _ _ _ H)|exact (HB _ _ _ H)].
Qed.

Lemma gc_compose A B : costs G A -> costs G B -> costs G (A :@: B).
Proof.
  intros HA HB s o w H. apply maps_compose in H as (m & w1 & w2 & H1 & H2 & ->).
  apply gc_add; [exact (HA _ _ _ H1)|exact (HB _ _ _ H2)].
Qed.

Lemma gc_cardinal_graph : costs G (cardinal_graph cardinal deterministic).
Proof. intros s o w H. exact (@gc_cardinal cardinal decimal fraction deterministic s o w H). Qed.

Lemma gc_decimal_graph : costs G (final_graph_wo_negative decimal).
Proof. intros s o w H. exact (@gc_decimal cardinal decimal fraction deterministic s o w H). Qed.

Lemma gc_fraction_graph : costs G (fraction_graph fraction).
Proof. intros s o w H. exact (@gc_fraction cardinal decimal fraction deterministic s o w H). Qed.

Ltac gc_tac :=
  repeat match goal with
    | |- costs _ (_ :+: _) => apply gc_concat
    | |- costs _ (_ :|: _) => apply gc_union
    | |- costs _ (_ :@: _) => apply gc_compose
    end;
  first [ exact gc_cardinal_graph
        | exact gc_decimal_graph
        | exact gc_fraction_graph
        | apply gc_unweighted; unweighted_tac; assumption ].

Ltac by_costs H :=
  match type of H with
  | maps ?T _ _ _ =>
      let K := fresh "K" in
      assert (K : costs G T); [|exact (K _ _ _ H)]
  end.

Lemma final_graph_grammar_cost s o w :
  maps (final_graph cardinal decimal fraction deterministic lm data) s o w ->
  maps (address cardinal lm data) s o w \/ G w.
Proof.
  assert (UP := unweighted_unit_plural data).
  assert (US := unweighted_unit_singular data).
  assert (UG := unweighted_graph_unit data).
  assert (UN : unweighted optional_graph_negative).
  { unfold optional_graph_negative. unweighted_tac. }
  assert (UD : unweighted delete_space).
  { unfold delete_space, NEMO_WHITE_SPACE. unweighted_tac. }
  assert (UA : unweighted NEMO_ALPHA).
  { unfold NEMO_ALPHA, NEMO_LOWER, NEMO_UPPER. unweighted_tac. }
  unfold final_graph. intros H.
  cut_union H.
  { right. by_costs H. unfold subgraph_decimal. gc_tac. }
  cut_union H.
  { right. by_costs H. unfold subgraph_cardinal, subgraph_cardinal_plural,
      subgraph_cardinal_singular. gc_tac. }
  cut_union H.
  { right. by_costs H. unfold unit_graph. gc_tac. }
  cut_union H.
  { right. by_costs H. unfold cardinal_dash_alpha. gc_tac. }
  cut_union H.
  { right. by_costs H. unfold alpha_dash_cardinal. gc_tac. }
  cut_union H.
  { right. by_costs H. unfold decimal_dash_alpha. gc_tac. }
  cut_union H.
  { right. by_costs H. unfold decimal_times. gc_tac. }
  cut_union H.
  { right. by_costs H. unfold alpha_dash_decimal. gc_tac. }
  cut_union H.
  { right. by_costs H. unfold subgraph_fraction. gc_tac. }
  cut_union H; [now left|].
  right. by_costs H. unfold math, math_equation, math_operations, delimiter.
  gc_tac.
Qed.

Hypothesis U_graph : unweighted (graph cardinal).
Hypothesis U_range : unweighted (range_graph cardinal).
Hypothesis U_decimal : unweighted (final_graph_wo_negative decimal).
Hypothesis U_fraction : unweighted (fraction_graph fraction).

Lemma unweighted_cardinal_graph : unweighted (cardinal_graph cardinal deterministic).
Proof.
  unfold cardinal_graph. destruct deterministic; unweighted_tac; assumption.
Qed.

Lemma grammar_cost_zero w : G w -> w = 0%Z.
Proof.
  intros H. induction H as [|s o w H|s o w H|s o w H|w1 w2 _ IH1 _ IH2].
  - reflexivity.
  - exact (unweighted_cardinal_graph _ _ _ H).
  - exact (U_decimal _ _ _ H).
  - exact (U_fraction _ _ _ H).
  - lia.
Qed.

End GrammarCosts.

Lemma final_graph_cost cardinal decimal fraction deterministic lm data :
  unweighted (graph cardinal) ->
  unweighted (range_graph cardinal) ->
  unweighted (final_graph_wo_negative decimal) ->
  unweighted (fraction_graph fraction) ->
  forall s o w,
    maps (final_graph cardinal decimal fraction deterministic lm data) s o w ->
    w = 0%Z \/ maps (address cardinal lm data) s o w.
Proof.
  intros U1 U2 U3 U4 s o w H.
  destruct (@final_graph_grammar_cost cardinal decimal fraction deterministic lm data
              s o w H) as [Ha|Hg]; [now right|left].
  exact (@grammar_cost_zero cardinal decimal fraction deterministic U1 U2 U3 U4 w Hg).
Qed.

(** X14.  No branch but the address branch carries a bias of its own
    (the weights of the file are on lines 258, 268, 293 and 302, all in
    [get_address_graph]).  The cost of a path of the alternation that is
    not an address path is made of costs of the injected grammars only: it
    is zero, the cost of a path of the cardinal, decimal or fraction
    graph, or a sum of such costs.  So when these graphs are unweighted,
    every path of the alternation with a cost other than zero is an
    address path. *)
Theorem biases_only_in_address :
  (forall cardinal decimal fraction deterministic lm data s o w,
     maps (final_graph cardinal decimal fraction deterministic lm data) s o w ->
     maps (address cardinal lm data) s o w
     \/ grammar_cost cardinal decimal fraction deterministic w)
  /\ (forall cardinal decimal fraction deterministic lm data,
        unweighted (graph cardinal) ->
        unweighted (range_graph cardinal) ->
        unweighted (final_graph_wo_negative decimal) ->
        unweighted (fraction_graph fraction) ->
        forall s o w,
          maps (final_graph cardinal decimal fraction deterministic lm data) s o w ->
          w <> 0%Z ->
          maps (address cardinal lm data) s o w).
Proof.
  split.
  - intros cardinal decimal fraction deterministic lm data s o w H.
    exact (@final_graph_grammar_cost cardinal decimal fraction deterministic lm data
             s o w H).
  - intros cardinal decimal fraction deterministic lm data U1 U2 U3 U4 s o w H Hw.
    destruct (@final_graph_cost cardinal decimal fraction deterministic lm data
                U1 U2 U3 U4 s o w H) as [E|Ha]; [contradiction|exact Ha].
Qed.

Lemma biases_only_in_address_witness :
  maps (address Sample.cardinal false Sample.data) (str "2788 N a St")
       (qstr "units: 'address' cardinal { integer: 'twenty seven eighty eight North a Street' } preserve_order: true")
       (-1001).
Proof.
  apply (proj2 biases_only_in_address Sample.cardinal Sample.decimal Sample.fraction
           true false Sample.data
           (string_map_unweighted _) (string_map_unweighted _)
           (string_map_unweighted _) (string_map_unweighted _)
           (str "2788 N a St")).
  - vm_compute. tauto.
  - discriminate.
Defined.

(** ** The costs of an address *)

Section AddressCosts.

Variable cardinal : CardinalFst.
Variable data : Resources.
Hypothesis U : unweighted_address_grammars cardinal data.

Lemma address_num_cost s o w :
  maps (address_num cardinal) s o w ->
  exists a, (a = 0 \/ a = 1)%Z /\ w = (- a)%Z.
Proof.
  destruct U as (Ug & Uh & _). unfold address_num. intros H.
  apply maps_union in H as [H|H].
  - exists 1%Z. split; [now right|]. exact (split_cost _ _ _ _ Uh H).
  - exists 0%Z. split; [now left|]. exact (Ug _ _ _ H).
Qed.

Lemma direction_cost s o w :
  maps direction s o w -> exists b, (b = 0 \/ b = 1)%Z /\ w = (- (1000 * b))%Z.
Proof.
  unfold direction. intros H. apply maps_optional in H as [(_ & _ & ->)|H].
  - exists 0%Z. auto.
  - apply maps_add_weight in H. exists 1%Z. split; [now right|].
    assert (K : unweighted (accep NEMO_SPACE :+: direction_word)).
    { unfold direction_word. unweighted_tac. }
    apply K in H. lia.
Qed.

Lemma unweighted_address_words : unweighted (address_words cardinal data).
Proof.
  destruct U as (_ & _ & _ & Uf & Ut & Uv).
  unfold address_words, ordinal_num, NEMO_ALPHA, NEMO_LOWER, NEMO_UPPER.
  unweighted_tac; assumption.
Qed.

Lemma unweighted_city : unweighted city.
Proof. unfold city, NEMO_ALPHA, NEMO_LOWER, NEMO_UPPER. unweighted_tac. Qed.

Lemma unweighted_state : unweighted (state data).
Proof. unfold state. unweighted_tac. Qed.

Lemma zip_code_cost s o w :
  maps (zip_code cardinal) s o w ->
  exists z, (z = 0 \/ z = 1)%Z /\ w = (- (100000 * z))%Z.
Proof.
  destruct U as (_ & _ & Us & _).
  unfold zip_code. intros H. apply maps_optional in H as [(_ & _ & ->)|H].
  - exists 0%Z. auto.
  - apply maps_add_weight in H. exists 1%Z. split; [now right|].
    assert (K : unweighted (closure (accep (str ",")) 0 (Some 1) :+: accep NEMO_SPACE
                            :+: (power NEMO_DIGIT 5 :@: single_digits_graph cardinal))).
    { unfold NEMO_DIGIT. unweighted_tac. assumption. }
    apply K in H. lia.
Qed.

Lemma tail_cost s o w :
  maps (closure (add_weight (city :+: state data :+: zip_code cardinal) (-1))
                0 (Some 1)) s o w ->
  (s = [] /\ o = [] /\ w = 0%Z)
  \/ exists z, (z = 0 \/ z = 1)%Z /\ w = (- (1 + 100000 * z))%Z.
Proof.
  intros H. apply maps_optional in H as [H|H]; [now left|right].
  apply maps_add_weight in H.
  apply maps_concat in H as (s1 & r & o1 & o2 & w1 & v & _ & H1 & H & _ & E).
  apply maps_concat in H as (s2 & s3 & o3 & o4 & w2 & w3 & _ & H2 & H3 & _ & ->).
  apply unweighted_city in H1. apply unweighted_state in H2.
  apply zip_code_cost in H3 as (z & Hz & ->). exists z. split; [exact Hz|lia].
Qed.

Lemma tail_reads_nothing :
  maps (closure (add_weight (city :+: state data :+: zip_code cardinal) (-1))
                0 (Some 1)) [] [] (-1).
Proof.
  apply maps_optional. right. apply maps_add_weight.
  change (maps (city :+: state data :+: zip_code cardinal)
               ([] ++ [] ++ []) ([] ++ [] ++ []) (0 + (0 + 0))).
  repeat apply maps_concat_intro; apply maps_optional; now left.
Qed.

Lemma house_number_part_of num on wn :
  maps (address_num cardinal) num on wn ->
  exists a, house_number_part cardinal a num on /\ wn = (- a)%Z.
Proof.
  destruct U as (Ug & Uh & _). unfold address_num. intros H.
  apply maps_union in H as [H|H].
  - assert (E := split_cost _ _ _ _ Uh H). subst wn.
    exists 1%Z. split; [left; now split|reflexivity].
  - assert (E := Ug _ _ _ H). subst wn.
    exists 0%Z. split; [right; now split|reflexivity].
Qed.

Lemma direction_part_of dir od wd :
  maps direction dir od wd ->
  exists b, direction_part b dir od /\ wd = (- (1000 * b))%Z.
Proof.
  intros H. assert (H' := H). unfold direction in H.
  apply maps_optional in H as [(-> & -> & ->)|H].
  - exists 0%Z. split; [right; auto|reflexivity].
  - apply maps_add_weight in H.
    assert (K : unweighted (accep NEMO_SPACE :+: direction_word)).
    { unfold direction_word. unweighted_tac. }
    assert (E := K _ _ _ H). assert (Ew : wd = (-1000)%Z) by lia. subst wd.
    unfold NEMO_SPACE in H. apply maps_accep_then in H as (r & o' & -> & _ & _).
    exists 1%Z. split; [left|reflexivity].
    split; [reflexivity|]. split; [discriminate|exact H'].
Qed.

Lemma zip_part_of zp oz wz :
  maps (zip_code cardinal) zp oz wz ->
  exists z, zip_part cardinal z zp oz /\ wz = (- (100000 * z))%Z.
Proof.
  destruct U as (_ & _ & Us & _).
  intros H. assert (H' := H). unfold zip_code in H.
  apply maps_optional in H as [(-> & -> & ->)|H].
  - exists 0%Z. split; [right; auto|reflexivity].
  - apply maps_add_weight in H.
    assert (K : unweighted (closure (accep (str ",")) 0 (Some 1) :+: accep NEMO_SPACE
                            :+: (power NEMO_DIGIT 5 :@: single_digits_graph cardinal))).
    { unfold NEMO_DIGIT. unweighted_tac. assumption. }
    assert (E := K _ _ _ H). assert (Ew : wz = (-100000)%Z) by lia. subst wz.
    apply maps_concat in H as (s1 & s2 & o1 & o2 & w1 & w2 & -> & _ & H & _ & _).
    unfold NEMO_SPACE in H. apply maps_accep_then in H as (r & o' & -> & _ & _).
    exists 1%Z. split; [left|reflexivity].
    split; [reflexivity|]. split; [|exact H'].
    intros E'. apply app_eq_nil in E' as [_ E']. discriminate E'.
Qed.

Lemma tail_part_of lm tail ot wt :
  maps (closure (add_weight (city :+: state data :+: zip_code cardinal) (-1))
                0 (Some 1)) tail ot wt ->
  exists c z, tail_part cardinal data lm c z tail ot
              /\ wt = (- (c + 100000 * z))%Z.
Proof.
  intros H. apply maps_optional in H as [(-> & -> & ->)|H].
  - exists 0%Z, 0%Z. split; [left; auto|reflexivity].
  - apply maps_add_weight in H.
    apply maps_concat in H as (ci & r & oc & o2 & w1 & v & -> & H1 & H & -> & E).
    apply maps_concat in H as (st & zp & os & oz & w2 & w3 & -> & H2 & H3 & -> & ->).
    assert (E1 := unweighted_city _ _ _ H1). assert (E2 := unweighted_state _ _ _ H2).
    subst w1 w2.
    apply zip_part_of in H3 as (z & Hz & ->).
    exists 1%Z, z. split; [|lia].
    right. split; [reflexivity|]. exists ci, st, zp, oc, os, oz. auto 10.
Qed.

Lemma period_part_of tail ot wt :
  maps (closure (cross (accep (str ".")) []) 0 (Some 1)) tail ot wt ->
  tail_part cardinal data true 0 0 tail ot /\ wt = 0%Z.
Proof.
  intros H. apply maps_optional in H as [(-> & -> & ->)|H].
  - split; [left; auto|reflexivity].
  - apply maps_cross in H as (-> & y & H). apply maps_accep in H as (-> & _ & ->).
    split; [left; auto 10|reflexivity].
Qed.

Lemma get_address_graph_parts lm s o w :
  maps (get_address_graph cardinal lm data) s o w ->
  exists num dir words tail on od ow ot a b c z,
    s = num ++ dir ++ words ++ tail /\
    o = on ++ od ++ ow ++ ot /\
    house_number_part cardinal a num on /\
    direction_part b dir od /\
    maps (address_words cardinal data) words ow 0 /\
    tail_part cardinal data lm c z tail ot /\
    w = (- (a + 1000 * b + c + 100000 * z))%Z.
Proof.
  assert (K : forall T,
             (forall r x v, maps T r x v ->
                exists c z, tail_part cardinal data lm c z r x
                            /\ v = (- (c + 100000 * z))%Z) ->
             maps (address_num cardinal :+: direction :+: address_words cardinal data :+: T)
                  s o w ->
             exists num dir words tail on od ow ot a b c z,
               s = num ++ dir ++ words ++ tail /\
               o = on ++ od ++ ow ++ ot /\
               house_number_part cardinal a num on /\
               direction_part b dir od /\
               maps (address_words cardinal data) words ow 0 /\
               tail_part cardinal data lm c z tail ot /\
               w = (- (a + 1000 * b + c + 100000 * z))%Z).
  { intros T HT H.
    apply maps_concat in H as (num & r1 & on & x1 & w1 & v1 & -> & H1 & H & -> & ->).
    apply maps_concat in H as (dir & r2 & od & x2 & w2 & v2 & -> & H2 & H & -> & ->).
    apply maps_concat in H as (words & tail & ow & ot & w3 & v3 & -> & H3 & H & -> & ->).
    apply house_number_part_of in H1 as (a & Ha & ->).
    apply direction_part_of in H2 as (b & Hb & ->).
    assert (E3 := unweighted_address_words _ _ _ H3). subst w3.
    apply HT in H as (c & z & Ht & ->).
    exists num, dir, words, tail, on, od, ow, ot, a, b, c, z.
    repeat split; try assumption. lia. }
  unfold get_address_graph. destruct lm; intros H.
  - apply maps_union in H as [H|H].
    + apply (K _ (tail_part_of true) H).
    + apply (K (closure (cross (accep (str ".")) []) 0 (Some 1))); [|exact H].
      intros r x v Hp. apply period_part_of in Hp as [Hp ->].
      exists 0%Z, 0%Z. split; [exact Hp|reflexivity].
  - apply (K _ (tail_part_of false) H).
Qed.

Lemma address_biased_path s o w :
  maps (address cardinal false data) s o w ->
  exists w', maps (address cardinal false data) s o w' /\ (w' <= -1)%Z.
Proof.
  unfold address. intros H.
  apply maps_insert_then in H as (o1 & H & ->).
  apply maps_then_insert in H as (body & H & ->).
  assert (G : exists w', maps (get_address_graph cardinal false data) s body w'
                         /\ (w' <= -1)%Z).
  { unfold get_address_graph in H |- *.
    apply maps_concat in H as (s1 & r1 & o1 & x1 & w1 & v1 & -> & H1 & H & -> & ->).
    apply maps_concat in H as (s2 & r2 & o2 & x2 & w2 & v2 & -> & H2 & H & -> & ->).
    apply maps_concat in H as (s3 & r3 & o3 & x3 & w3 & v3 & -> & H3 & H & -> & ->).
    destruct (address_num_cost _ _ _ H1) as (a & Ha & ->).
    destruct (direction_cost _ _ _ H2) as (b & Hb & ->).
    assert (E3 := unweighted_address_words _ _ _ H3). subst w3.
    destruct (tail_cost _ _ _ H) as [(-> & -> & ->)|(z & Hz & ->)].
    - exists (- a + (- (1000 * b) + (0 + -1)))%Z. split; [|lia].
      repeat (apply maps_concat_intro; [assumption|]).
      exact tail_reads_nothing.
    - exists (- a + (- (1000 * b) + (0 + - (1 + 100000 * z))))%Z. split; [|lia].
      repeat (apply maps_concat_intro; [assumption|]). exact H. }
  destruct G as (w' & G & Hw). exists w'. split; [|exact Hw].
  apply maps_insert_then. eexists. split; [|reflexivity].
  apply maps_then_insert_iff. now exists body.
Qed.

End AddressCosts.

Lemma address_in_final_graph cardinal decimal fraction deterministic lm data s o w :
  maps (address cardinal lm data) s o w ->
  maps (final_graph cardinal decimal fraction deterministic lm data) s o w.
Proof.
  intros H. unfold final_graph.
  do 9 (apply maps_union; right). apply maps_union. now left.
Qed.

Lemma sample_unweighted_address :
  unweighted_address_grammars Sample.cardinal Sample.data.
Proof.
  unfold unweighted_address_grammars, Sample.cardinal, Sample.data.
  cbn [graph graph_hundred_component_at_least_one_none_zero_digit
       single_digits_graph address_words_formats OrdinalTagger OrdinalVerbalizer].
  unfold insert_space. repeat split; unweighted_tac.
Qed.

(** X15.  The costs of an address, part by part (lines 252-306).  When
    the grammars and tables that the address graph is built from are
    unweighted, an address path is a house number, a direction, a street
    and a tail in a row, and its cost is the sum of the biases of the
    parts it takes: [-0.001] when the house number is read by the split
    spelling and nothing when it is read by the cardinal graph; [-1] when
    a direction is read; [-0.001] when the group of city, state and zip
    code is taken, and [-100] more when a zip code is read in it.  With
    [lm=True] the tail may also be a period, at no cost.  Costs are in
    thousandths. *)
Theorem address_cost_levels :
  forall cardinal lm data,
    unweighted_address_grammars cardinal data ->
    forall s o w,
      maps (address cardinal lm data) s o w ->
      exists num dir words tail on od ow ot a b c z,
        s = num ++ dir ++ words ++ tail /\
        o = qstr "units: 'address' cardinal { integer: '"
            ++ (on ++ od ++ ow ++ ot)
            ++ qstr "' } preserve_order: true" /\
        house_number_part cardinal a num on /\
        direction_part b dir od /\
        maps (address_words cardinal data) words ow 0 /\
        tail_part cardinal data lm c z tail ot /\
        w = (- (a + 1000 * b + c + 100000 * z))%Z.
Proof.
  intros cardinal lm data U s o w H. unfold address in H.
  apply maps_insert_then in H as (o1 & H & ->).
  apply maps_then_insert in H as (body & H & ->).
  destruct (@get_address_graph_parts cardinal data U lm s body w H)
    as (num & dir & words & tail & on & od & ow & ot & a & b & c & z
        & Es & Eo & Ha & Hb & Hw & Ht & Ew).
  exists num, dir, words, tail, on, od, ow, ot, a, b, c, z.
  subst body. repeat split; assumption.
Qed.

Lemma address_cost_levels_witness :
  exists num dir words tail on od ow ot a b c z,
    str "2788 N a St" = num ++ dir ++ words ++ tail /\
    qstr "units: 'address' cardinal { integer: 'twenty seven eighty eight North a Street' } preserve_order: true"
    = qstr "units: 'address' cardinal { integer: '"
      ++ (on ++ od ++ ow ++ ot)
      ++ qstr "' } preserve_order: true" /\
    house_number_part Sample.cardinal a num on /\
    direction_part b dir od /\
    maps (address_words Sample.cardinal Sample.data) words ow 0 /\
    tail_part Sample.cardinal Sample.data false c z tail ot /\
    (-1001)%Z = (- (a + 1000 * b + c + 100000 * z))%Z.
Proof.
  apply (@address_cost_levels Sample.cardinal false Sample.data
           sample_unweighted_address (str "2788 N a St")
           (qstr "units: 'address' cardinal { integer: 'twenty seven eighty eight North a Street' } preserve_order: true")).
  vm_compute. tauto.
Defined.

(** X16.  An address is preferred to every other reading.  The group of
    city, state and zip code is optional inside and outside (lines
    278-302): it reads the empty string at its bias [-0.001], so every
    input that the address branch accepts (default [lm=False]) has an
    address path of negative cost.  When the injected grammars are
    unweighted, the ten other branches cost nothing, and every path of
    least cost of the alternation on such an input is an address path. *)
Theorem address_branch_preferred :
  forall cardinal decimal fraction deterministic data,
    unweighted_address_grammars cardinal data ->
    unweighted (range_graph cardinal) ->
    unweighted (final_graph_wo_negative decimal) ->
    unweighted (fraction_graph fraction) ->
    forall s,
      accepts (address cardinal false data) s ->
      forall o w,
        In (o, w) (cheapest (final_graph cardinal decimal fraction deterministic
                               false data) s) ->
        maps (address cardinal false data) s o w /\ (w <= -1)%Z.
Proof.
  intros cardinal decimal fraction deterministic data U Ur Ud Uf s (o1 & w1 & H1) o w Hc.
  apply in_cheapest in Hc as [Hm Hmin].
  destruct (@address_biased_path cardinal data U s o1 w1 H1) as (w' & H' & Hw').
  assert (Hle : (w <= w')%Z).
  { apply (Hmin o1).
    now apply (@address_in_final_graph cardinal decimal fraction deterministic). }
  destruct (@final_graph_cost cardinal decimal fraction deterministic false data
              (proj1 U) Ur Ud Uf s o w Hm) as [-> | Ha].
  - lia.
  - split; [exact Ha|lia].
Qed.

Lemma address_branch_preferred_witness :
  maps (address Sample.cardinal false Sample.data) (str "12 a St")
       (qstr "units: 'address' cardinal { integer: 'twelve a Street' } preserve_order: true")
       (-1)
  /\ (-1 <= -1)%Z.
Proof.
  apply (@address_branch_preferred Sample.cardinal Sample.decimal Sample.fraction
           true Sample.data sample_unweighted_address
           (string_map_unweighted _) (string_map_unweighted _)
           (string_map_unweighted _) (str "12 a St")).
  - exists (qstr "units: 'address' cardinal { integer: 'twelve a Street' } preserve_order: true"),
      0%Z.
    vm_compute. now left.
  - vm_compute. now left.
Defined.

(** ** The street of an address and the trailing period *)

Lemma maps_ordinal_num cardinal data x y w :
  maps (ordinal_num cardinal data) x y w <->
  exists t w1 w2,
    maps (OrdinalTagger data cardinal) x t w1 /\
    maps (OrdinalVerbalizer data) (qstr "integer: '" ++ t ++ qstr "'") y w2 /\
    w = (w1 + w2)%Z.
Proof.
  unfold ordinal_num. rewrite maps_compose. split.
  - intros (m & w1 & w2 & H & Hv & ->).
    apply maps_insert_then in H as (o1 & H & ->).
    apply maps_then_insert in H as (t & H & ->).
    now exists t, w1, w2.
  - intros (t & w1 & w2 & H & Hv & ->).
    exists (qstr "integer: '" ++ t ++ qstr "'"), w1, w2.
    repeat split; [|assumption].
    apply maps_insert_then. eexists. split; [|reflexivity].
    apply maps_then_insert_iff. now exists t.
Qed.

Lemma maps_alpha_or_space_star s o w :
  maps (closure (NEMO_ALPHA :|: accep NEMO_SPACE) 0 None) s o w <->
  forallb is_alpha_or_space s = true /\ o = s /\ w = 0%Z.
Proof.
  rewrite (maps_star_sym _ is_alpha_or_space (fun x => x) maps_alpha_or_space).
  now rewrite map_id.
Qed.

Lemma maps_concat4 (A B C T : wfst) s o w :
  maps (A :+: B :+: C :+: T) s o w <->
  exists r t o1 o2 w1 w2,
    s = r ++ t /\ maps (A :+: B :+: C) r o1 w1 /\ maps T t o2 w2 /\
    o = o1 ++ o2 /\ w = (w1 + w2)%Z.
Proof.
  split.
  - intros H.
    apply maps_concat in H as (s1 & r1 & o1 & x1 & w1 & v1 & -> & H1 & H & -> & ->).
    apply maps_concat in H as (s2 & r2 & o2 & x2 & w2 & v2 & -> & H2 & H & -> & ->).
    apply maps_concat in H as (s3 & t & o3 & ot & w3 & wt & -> & H3 & H & -> & ->).
    exists (s1 ++ s2 ++ s3), t, (o1 ++ o2 ++ o3), ot, (w1 + (w2 + w3))%Z, wt.
    repeat split; [app_eq| |assumption|app_eq|lia].
    repeat (apply maps_concat_intro; [assumption|]). assumption.
  - intros (r & t & x & ot & v & wt & -> & H & Ht & -> & ->).
    apply maps_concat in H as (s1 & r1 & o1 & x1 & w1 & v1 & -> & H1 & H & -> & ->).
    apply maps_concat in H as (s2 & s3 & o2 & o3 & w2 & w3 & -> & H2 & H3 & -> & ->).
    rewrite <- !app_assoc.
    replace (w1 + (w2 + w3) + wt)%Z with (w1 + (w2 + (w3 + wt)))%Z by lia.
    repeat (apply maps_concat_intro; [assumption|]). assumption.
Qed.

(** X17.  The street part of an address (lines 246-250 and 269-276) is
    five pieces in a row: a space; a street word, which is an ordinal
    read by the ordinal tagger and spelled by the ordinal verbalizer, or a
    non-empty run of ASCII letters, or nothing at all; a space; any run of
    letters and spaces; and a street format of the table.  The spaces,
    the letters and the run are copied.  The street word may be empty, so
    two spaces in a row before the format are read. *)
Theorem address_words_relation :
  (forall cardinal data s o w,
     maps (address_words cardinal data) s o w <->
     exists street street' run fmt fmt' w1 w2,
       s = str " " ++ street ++ str " " ++ run ++ fmt /\
       ((street = [] /\ street' = [] /\ w1 = 0%Z)
        \/ maps (ordinal_num cardinal data) street street' w1
        \/ (street <> [] /\ forallb is_alpha street = true /\
            street' = street /\ w1 = 0%Z)) /\
       forallb is_alpha_or_space run = true /\
       maps (address_words_formats data) fmt fmt' w2 /\
       o = str " " ++ street' ++ str " " ++ run ++ fmt' /\
       w = (w1 + w2)%Z)
  /\ (forall cardinal data x y w,
        maps (ordinal_num cardinal data) x y w <->
        exists t w1 w2,
          maps (OrdinalTagger data cardinal) x t w1 /\
          maps (OrdinalVerbalizer data) (qstr "integer: '" ++ t ++ qstr "'") y w2 /\
          w = (w1 + w2)%Z)
  /\ address_words Sample.cardinal Sample.data (str " 1st St")
     = [(str " first Street", 0%Z)]
  /\ address_words Sample.cardinal Sample.data (str " San Tomas Expy")
     = [(str " San Tomas Expressway", 0%Z)]
  /\ address_words Sample.cardinal Sample.data (str "  St")
     = [(str "  Street", 0%Z)].
Proof.
  split; [|split; [exact maps_ordinal_num|repeat split; vm_compute; reflexivity]].
  intros cardinal data s o w. unfold address_words, NEMO_SPACE.
  rewrite maps_accep_then. split.
  - intros (r & o' & -> & H & ->).
    apply maps_concat in H as (street & r1 & street' & x1 & w1 & v1 & -> & Hs & H & -> & ->).
    apply maps_accep_then in H as (r2 & x2 & -> & H & ->).
    apply maps_concat in H as (run & fmt & run' & fmt' & u & w2 & -> & Hr & Hf & -> & ->).
    apply maps_alpha_or_space_star in Hr as (Hr & -> & ->).
    exists street, street', run, fmt, fmt', w1, w2.
    repeat split; try assumption.
    apply maps_union in Hs as [Hs|Hs].
    + apply maps_optional in Hs as [Hs|Hs]; [now left|right; now left].
    + apply maps_alpha_plus in Hs. right. now right.
  - intros (street & street' & run & fmt & fmt' & w1 & w2
            & -> & Hs & Hr & Hf & -> & ->).
    eexists. eexists. split; [reflexivity|]. split; [|reflexivity].
    replace (w1 + w2)%Z with (w1 + (0 + w2))%Z by lia.
    apply maps_concat_intro.
    + apply maps_union. destruct Hs as [Hs|[Hs|Hs]].
      * left. apply maps_optional. now left.
      * left. apply maps_optional. now right.
      * right. now apply maps_alpha_plus.
    + apply maps_accep_then. eexists. eexists. split; [reflexivity|].
      split; [|reflexivity].
      apply maps_concat_intro; [|assumption].
      now apply maps_alpha_or_space_star.
Qed.

(** X18.  The flag [lm] and the trailing period (lines 305-306).  With
    [lm=True] the address graph is the graph of [lm=False] united with
    one more alternative: house number, direction and street, with no
    city, state or zip code, and a period after them that is optional and
    deleted. *)
Theorem lm_trailing_period :
  (forall cardinal data s o w,
     maps (get_address_graph cardinal true data) s o w <->
     maps (get_address_graph cardinal false data) s o w
     \/ exists r dot,
          (dot = [] \/ dot = str ".") /\ s = r ++ dot /\
          maps (address_num cardinal :+: direction :+: address_words cardinal data)
               r o w)
  /\ get_address_graph Sample.cardinal true Sample.data (str "12 a St.")
     = [(str "twelve a Street", 0%Z)]
  /\ get_address_graph Sample.cardinal false Sample.data (str "12 a St.") = [].
Proof.
  split; [|split; vm_compute; reflexivity].
  intros cardinal data s o w. unfold get_address_graph.
  rewrite maps_union. apply or_iff_compat_l. rewrite maps_concat4. split.
  - intros (r & dot & o1 & o2 & w1 & w2 & -> & H & Hd & -> & ->).
    exists r, dot. apply maps_optional in Hd as [(-> & -> & ->)|Hd].
    + rewrite !app_nil_r. replace (w1 + 0)%Z with w1 by lia. auto.
    + apply maps_cross in Hd as (-> & y & Hd).
      apply maps_accep in Hd as (-> & _ & ->).
      rewrite !app_nil_r. replace (w1 + 0)%Z with w1 by lia. auto.
  - intros (r & dot & Hd & -> & H).
    exists r, dot, o, [], w, 0%Z. rewrite app_nil_r.
    repeat split; [assumption| |lia].
    apply maps_optional. destruct Hd as [-> | ->]; [now left|right].
    apply maps_cross. split; [reflexivity|]. exists (str ".").
    now apply maps_accep.
Qed.
